(** * NULLID-ZKVERIFY: the e-mail attestation circuit, its witness builder and
    the relayer's polling loop.

    The development embeds
    - [circuits/eml_receiver.circom]: every template as the list of constraints
      it emits over an assignment of its signals (module [Circuit]);
    - [tools/build_input.js]: the witness builder (module [Builder]);
    - [relayer/submit.js]: the status polling loops (module [Relayer]).

    A circom circuit is compiled for a prime chosen on the command line (the
    relayer submits the proofs as [curve: 'bn128']); the templates themselves
    are written for any prime field, and so is the embedding: the prime [p]
    is a section variable and a signal is an element of [Zmod p]. *)

From Stdlib Require Import ZArith List Lia Bool Zmod Ascii String.
Import ListNotations.
Local Open Scope Z_scope.
Set Warnings "-abstract-large-number".

(** ** Constraints over a prime field *)

Module R1CS.

Section Constraints.
  Variable p : Z.
  Abbreviation F := (Zmod p).

  (** A constraint [lhs === rhs], both sides already evaluated under the
      assignment of the signals. *)
Record constraint : Type := Ceq { lhs : F; rhs : F }.

Definition holds (c : constraint) : bool := Zmod.eqb (lhs c) (rhs c).

Definition satisfied (cs : list constraint) : bool := forallb holds cs.

  (** Arrays of signals are lists; an array is only ever read inside its
      declared size. *)
Definition get (l : list F) (i : nat) : F := nth i l Zmod.zero.

End Constraints.

Arguments Ceq {p} _ _.
Arguments lhs {p} _.
Arguments rhs {p} _.
Arguments holds {p} _.
Arguments satisfied {p} _.
Arguments get {p} _ _.

End R1CS.

(** ** The circuit: [circuits/eml_receiver.circom]

    Every template is embedded as the list of constraints it emits, written
    with the loops of the source.  A signal assigned with [x <== e] is
    replaced by [e] (the assignment and the constraint [x === e] fix it);
    the inputs of the main component and the bits that [Num2Bits] assigns
    with [<--] are the free part of an assignment. *)

Module Circuit.
Import R1CS.

Section Templates.
  Variable p : Z.
  Abbreviation F := (Zmod p).

  Local Notation "a === b" := (Ceq a b) (at level 70, no associativity).
  Local Open Scope Zmod_scope.

  (** [Poseidon(2)] of circomlib's [poseidon.circom]: a component whose
      output is a function of its two inputs. *)
  Variable Poseidon : F -> F -> F.

  (** [template Bits1()] *)
Definition Bits1 (in_ : F) : F * list (constraint p) :=
    let out := in_ in
    (out, [out * (out - 1) === 0]).

  (** Modelled from the spec: [Num2Bits(n)] of circomlib's [bitify.circom],
      which the circuit includes and which is not among the sources: the
      "fixed-width binary decomposition" of 4.1 that "reconstructs the value
      from the bits".  Every [out[i]] is constrained to be a bit, and the
      bits weighted by the powers of two ([e2], doubled at each step) must
      add up to [in]. *)
Definition Num2Bits (n : nat) (in_ : F) (out : list F) : list (constraint p) :=
    let lc1 :=
      fst (fold_left (fun '(lc1, e2) i => (lc1 + get out i * e2, e2 + e2))
                     (seq 0 n) (0, 1)) in
    map (fun i => get out i * (get out i - 1) === 0) (seq 0 n)
    ++ [lc1 === in_].

  (** The witness generator's [out[i] <-- (in >> i) & 1]. *)
Definition Num2Bits_witness (n : nat) (in_ : F) : list F :=
    map (fun i => Zmod.of_Z p (Z.land (Z.shiftr (Zmod.to_Z in_) (Z.of_nat i)) 1))
        (seq 0 n).

  (** [template ByteIsUint8()]: [n2b.in <== b], and [ok <== 1]. *)
Definition ByteIsUint8 (b : F) (n2b_out : list F) : F * list (constraint p) :=
    let ok := 1 in
    (ok, Num2Bits 8 b n2b_out).

  (** [template Pack31BytesLittleEndian()]; [n2b_out i] holds the bits of
      [isByte[i].n2b]. *)
Definition Pack31BytesLittleEndian (bytes : list F) (n2b_out : nat -> list F)
    : F * list (constraint p) :=
    let isByte := flat_map (fun i => snd (ByteIsUint8 (get bytes i) (n2b_out i)))
                           (seq 0 31) in
    let accCalc :=
      fst (fold_left (fun '(accCalc, mulCalc) j =>
                        (accCalc + get bytes j * mulCalc, mulCalc * Zmod.of_Z p 256))
                     (seq 0 31) (0, 1)) in
    (accCalc, isByte).

  (** [template RollingPoseidon(maxLen, numChunks)]; [n2b_out c k] holds the
      bits of [packers[c].isByte[k].n2b]. *)
Definition packer_bytes (maxLen : nat) (eml : list F) (c : nat) : list F :=
    map (fun k => let idx := (c * 31 + k)%nat in
                  if (idx <? maxLen)%nat then get eml idx else 0)
        (seq 0 31).

Definition packers (maxLen : nat) (eml : list F) (n2b_out : nat -> nat -> list F)
             (c : nat) : F * list (constraint p) :=
    Pack31BytesLittleEndian (packer_bytes maxLen eml c) (n2b_out c).

  (** [H[i2].out], with [H[i2].inputs[0] <== (i2 == 0 ? 0 : H[i2-1].out)]
      and [H[i2].inputs[1] <== packers[i2].out]. *)
Fixpoint H_out (packers_out : nat -> F) (i2 : nat) : F :=
    Poseidon (match i2 with O => 0 | S j => H_out packers_out j end)
             (packers_out i2).

Definition RollingPoseidon (maxLen numChunks : nat) (eml : list F)
             (n2b_out : nat -> nat -> list F) : F * list (constraint p) :=
    let commitment :=
      H_out (fun c => fst (packers maxLen eml n2b_out c)) (numChunks - 1) in
    (commitment,
     flat_map (fun c => snd (packers maxLen eml n2b_out c)) (seq 0 numChunks)).

  (** [template LiteralAtIndex(MAX_EML_LEN, LIT_LEN)].  [POSITIONS] is
      [MAX_EML_LEN - LIT_LEN + 1]; the template compiles only when it is
      positive (the constant [sumSel] would otherwise be [0 === 1]), where the
      truncated subtraction of [nat] agrees with it. *)
Definition LiteralAtIndex (MAX_EML_LEN LIT_LEN : nat) (eml lit sel : list F)
    : F * list (constraint p) :=
    let POSITIONS := (MAX_EML_LEN + 1 - LIT_LEN)%nat in
    let sumSel := fold_left (fun sumSel t => sumSel + get sel t) (seq 0 POSITIONS) 0 in
    let ok := 1 in
    (ok,
     map (fun t => get sel t * (get sel t - 1) === 0) (seq 0 POSITIONS)
     ++ [sumSel === 1]
     ++ map (fun u => get sel u === 0) (seq POSITIONS (MAX_EML_LEN - POSITIONS))
     ++ flat_map (fun i =>
          map (fun t2 => get sel t2 * (get eml (t2 + i) - get lit i) === 0)
              (seq 0 POSITIONS))
          (seq 0 LIT_LEN)).

  (** The signals of the main component that an assignment is free to
      choose: its inputs, and the bits of every byte check. *)
Record Signals : Type := {
    eml_commitment : F;
    eml : list F;
    from_bytes : list F;
    to_bytes : list F;
    atg_bytes : list F;
    sel_from : list F;
    sel_to : list F;
    sel_atg : list F;
    n2b_out : nat -> nat -> list F
  }.

  (** [template EmlHasHeadersSimple(MAX_EML_LEN)] *)
Definition EmlHasHeadersSimple (MAX_EML_LEN : nat) (s : Signals)
    : list (constraint p) :=
    let RH := RollingPoseidon MAX_EML_LEN 265 (eml s) (n2b_out s) in
    let HAS_FROM := LiteralAtIndex MAX_EML_LEN 5 (eml s) (from_bytes s) (sel_from s) in
    let HAS_TO := LiteralAtIndex MAX_EML_LEN 3 (eml s) (to_bytes s) (sel_to s) in
    let HAS_ATG := LiteralAtIndex MAX_EML_LEN 10 (eml s) (atg_bytes s) (sel_atg s) in
    snd RH ++ [fst RH === eml_commitment s]
    ++ snd HAS_FROM ++ [fst HAS_FROM === 1]
    ++ snd HAS_TO ++ [fst HAS_TO === 1]
    ++ snd HAS_ATG ++ [fst HAS_ATG === 1].

  (** [component main { public [ eml_commitment ] } = EmlHasHeadersSimple(8192)] *)
Definition main (s : Signals) : list (constraint p) := EmlHasHeadersSimple 8192 s.

End Templates.
End Circuit.

(** ** The witness builder: [tools/build_input.js]

    JavaScript numbers and BigInts are integers of [Z]; an array is a list.
    The strings of [input.json] are the decimal writings of these integers,
    and the record below holds the integers they denote. *)

Module Builder.

(** [const MAX = 8192] *)
Definition MAX : nat := 8192.

(** [bytes[i] || 0]: an index past the end reads [undefined], hence [0]. *)
Definition at_or_0 (bytes : list Z) (i : nat) : Z := nth i bytes 0.

(** [function pack31LE(bytes)] *)
Definition pack31LE (bytes : list Z) : Z :=
  fst (fold_left (fun '(acc, mul) i =>
                    let b := at_or_0 bytes i in
                    (acc + b * mul, mul * 256))
                 (seq 0 31) (0, 1)).

(** [function strBytesAscii(s)] *)
Definition strBytesAscii (s : string) : list Z :=
  map (fun c => Z.of_nat (nat_of_ascii c)) (list_ascii_of_string s).

(** [arr[pos] = v] at a position inside the array. *)
Fixpoint set_nth {A} (arr : list A) (pos : nat) (v : A) : list A :=
  match arr, pos with
  | [], _ => []
  | _ :: rest, O => v :: rest
  | x :: rest, S pos' => x :: set_nth rest pos' v
  end.

(** [function oneHot(length, pos)] *)
Definition oneHot (length : nat) (pos : Z) : list Z :=
  let arr := repeat 0 length in
  if (0 <=? pos) && (pos <? Z.of_nat length) then set_nth arr (Z.to_nat pos) 1
  else arr.

(** [arr.slice(start, end)], for [start <= end]. *)
Definition slice {A} (arr : list A) (start end_ : nat) : list A :=
  firstn (end_ - start) (skipn start arr).

(** Whether [needle] is found in [buf] at its very start. *)
Fixpoint starts_with (buf needle : list Z) : bool :=
  match needle, buf with
  | [], _ => true
  | _ :: _, [] => false
  | n :: needle', b :: buf' => (b =? n) && starts_with buf' needle'
  end.

(** Node's [buf.indexOf(value)] for a Buffer [value]: the index of the first
    occurrence of [value] in [buf], or [-1]; [i] is the index of the head of
    [buf] in the whole buffer. *)
Fixpoint indexOf_from (i : Z) (buf needle : list Z) {struct buf} : Z :=
  if starts_with buf needle then i
  else match buf with
       | [] => -1
       | _ :: rest => indexOf_from (i + 1) rest needle
       end.

Definition indexOf (buf needle : list Z) : Z := indexOf_from 0 buf needle.

Definition byte_to_Z (b : Byte.byte) : Z := Z.of_N (Byte.to_N b).

(** [Array.from(raw.slice(0, MAX))] followed by
    [while (eml.length < MAX) eml.push(0)]. *)
Definition padded (raw : list Byte.byte) : list Z :=
  let eml := map byte_to_Z (firstn MAX raw) in
  eml ++ repeat 0 (MAX - List.length eml).

Definition fromStr : string := "From:".
Definition toStr : string := "To:".
Definition atgStr : string := "@gmail.com".

(** The object written to [input.json]. *)
Record Input : Type := {
  eml_commitment : Z;
  eml : list Z;
  from_bytes : list Z;
  to_bytes : list Z;
  atg_bytes : list Z;
  sel_from : list Z;
  sel_to : list Z;
  sel_atg : list Z
}.

(** How a run ends: [process.exit(code)] before anything is written, or
    [input.json] written. *)
Inductive outcome : Type :=
| Exit (code : Z)
| Written (input : Input).

Section Poseidon.
  Variable p : Z.
  (** [poseidon] of circomlibjs on two field elements. *)
  Variable poseidon : Zmod p -> Zmod p -> Zmod p.

  (** The loop
      [for (let off = 0; off < MAX; off += 31) { ... h = BigInt(F.toString(out)); }],
      one iteration per unit of [fuel]: [F.e] is [Zmod.of_Z p], and
      [BigInt(F.toString(out))] is the canonical representative of [out]. *)
Fixpoint commitment_loop (fuel : nat) (eml : list Z) (off : nat) (h : Z)
    : option Z :=
    if (off <? MAX)%nat then
      match fuel with
      | O => None
      | S fuel' =>
          let chunk := pack31LE (slice eml off (off + 31)) in
          let out := poseidon (Zmod.of_Z p h) (Zmod.of_Z p chunk) in
          commitment_loop fuel' eml (off + 31) (Zmod.to_Z out)
      end
    else Some h.

  (** The body of the script once the document has been read. *)
Definition build (fuel : nat) (raw : list Byte.byte) : option outcome :=
    let eml := padded raw in
    let buf := eml in
    let idx_from := indexOf buf (strBytesAscii fromStr) in
    let idx_to := indexOf buf (strBytesAscii toStr) in
    let idx_atg := indexOf buf (strBytesAscii atgStr) in
    if (idx_from <? 0) || (idx_to <? 0) || (idx_atg <? 0) then Some (Exit 2)
    else
      match commitment_loop fuel eml 0 0 with
      | None => None
      | Some h =>
          Some (Written {|
            eml_commitment := h;
            eml := eml;
            from_bytes := strBytesAscii fromStr;
            to_bytes := strBytesAscii toStr;
            atg_bytes := strBytesAscii atgStr;
            sel_from := oneHot MAX idx_from;
            sel_to := oneHot MAX idx_to;
            sel_atg := oneHot MAX idx_atg
          |})
      end.

  (** The loop makes fewer than [MAX] iterations. *)
Definition run (raw : list Byte.byte) : option outcome := build MAX raw.
End Poseidon.

End Builder.

(** ** The relayer script: the polling loops of [relayer/submit.js]

    The [k]-th answer of the relayer to a [job-status] request is
    [responses k]; only its [status] string matters to the loops. *)

Module Relayer.

Definition is_aggregated (status : string) : bool := String.eqb status "Aggregated".

(** What a loop leaves behind: the last status read, how many requests were
    sent, and the milliseconds spent in [setTimeout]. *)
Record polled : Type := {
  last_status : string;
  requests : nat;
  waited_ms : Z
}.

(** The first loop,
    [for (;;) { st = await axios.get(...); last = st.data;
                if (last.status === 'Aggregated') break;
                await new Promise(r => setTimeout(r, 5000)); }],
    unrolled [fuel] times; [None] when [fuel] iterations did not reach the
    [break]. *)
Fixpoint poll_forever (fuel : nat) (responses : nat -> string) (k : nat)
         (waited : Z) : option polled :=
  match fuel with
  | O => None
  | S fuel' =>
      let last := responses k in
      if is_aggregated last
      then Some {| last_status := last; requests := S k; waited_ms := waited |}
      else poll_forever fuel' responses (S k) (waited + 5000)
  end.

(** The second loop,
    [for (let i = 0; i < 180 && !aggregated; i++) {
       await new Promise(r => setTimeout(r, 5000));
       st2 = await axios.get(...); last = st2.data;
       if (last.status === 'Aggregated') aggregated = true; }],
    with [remaining = 180 - i]. *)
Fixpoint poll_bounded (remaining : nat) (responses : nat -> string)
         (st : polled) : polled :=
  match remaining with
  | O => st
  | S remaining' =>
      if is_aggregated (last_status st) then st
      else
        let last := responses (requests st) in
        poll_bounded remaining' responses
          {| last_status := last;
             requests := S (requests st);
             waited_ms := waited_ms st + 5000 |}
  end.

(** What [main] does once the job is submitted. *)
Inductive action : Type :=
| RecordOnChain (st : polled)        (* the [Aggregated && PRIVATE_KEY] branch *)
| RecordAfterExtendedWait (st : polled)
| SkipStillNotAvailable (st : polled)
| SkipNoWallet (st : polled).

(** The control flow of [main] after [submit-proof]: the first loop, the
    15 s of grace, then the branches on [last.status] and [PRIVATE_KEY]. *)
Definition after_submit (fuel : nat) (responses : nat -> string)
           (PRIVATE_KEY : bool) : option action :=
  match poll_forever fuel responses 0 0 with
  | None => None
  | Some st =>
      let st := {| last_status := last_status st; requests := requests st;
                   waited_ms := waited_ms st + 15000 |} in
      if is_aggregated (last_status st) && PRIVATE_KEY then Some (RecordOnChain st)
      else if PRIVATE_KEY then
        let st' := poll_bounded 180 responses st in
        if is_aggregated (last_status st')
        then Some (RecordAfterExtendedWait
                     {| last_status := last_status st'; requests := requests st';
                        waited_ms := waited_ms st' + 15000 |})
        else Some (SkipStillNotAvailable st')
      else Some (SkipNoWallet st)
  end.

End Relayer.

(** ** The hexadecimal helpers of [relayer/submit.js]

    A JavaScript string is a [string]; a Buffer is the list of its bytes. *)

Module Hex.

(** How a call ends: with a value, or with [throw new Error(message)]. *)
Inductive completion (A : Type) : Type :=
| Returned (value : A)
| Thrown (message : string).
Arguments Returned {A} _.
Arguments Thrown {A} _.

(** The digit of a value below 16, in lower case. *)
Definition hex_digit (d : Z) : ascii :=
  if d <? 10 then ascii_of_nat (Z.to_nat (48 + d)) else ascii_of_nat (Z.to_nat (87 + d)).

(** The value of a hexadecimal digit, in either case. *)
Definition hex_val (c : ascii) : option Z :=
  let n := Z.of_nat (nat_of_ascii c) in
  if (48 <=? n) && (n <=? 57) then Some (n - 48)
  else if (97 <=? n) && (n <=? 102) then Some (n - 87)
  else if (65 <=? n) && (n <=? 70) then Some (n - 55)
  else None.

(** The digits of [n >= 0] in base 16, most significant first, in front of
    [acc]; one digit per unit of [fuel]. *)
Fixpoint hex_digits (fuel : nat) (n : Z) (acc : string) : string :=
  match fuel with
  | O => acc
  | S fuel' =>
      let acc' := String (hex_digit (n mod 16)) acc in
      if n <? 16 then acc' else hex_digits fuel' (n / 16) acc'
  end.

(** [bn.toString(16)] of a BigInt: no prefix, a minus sign in front of the
    digits of a negative value. *)
Definition toString16 (bn : Z) : string :=
  let digits n := hex_digits (S (Z.to_nat (Z.log2 n))) n EmptyString in
  if bn <? 0 then String "-"%char (digits (- bn)) else digits bn.

Fixpoint repeat_char (c : ascii) (n : nat) : string :=
  match n with
  | O => EmptyString
  | S n' => String c (repeat_char c n')
  end.

(** [s.padStart(targetLength, c)] for a one-character pad. *)
Definition padStart (s : string) (targetLength : nat) (c : ascii) : string :=
  (repeat_char c (targetLength - String.length s) ++ s)%string.

(** [function toBeHex32(bn)] *)
Definition toBeHex32 (bn : Z) : completion string :=
  let hex := toString16 bn in
  if (64 <? String.length hex)%nat then Thrown "public input > 256 bits"%string
  else Returned ("0x" ++ padStart hex 64 "0"%char)%string.

(** [Buffer.from(s, 'hex')]: one byte per pair of digits, up to the first
    pair that is not made of two digits. *)
Fixpoint from_hex (s : string) : list Z :=
  match s with
  | String c1 (String c2 rest) =>
      match hex_val c1, hex_val c2 with
      | Some hi, Some lo => (16 * hi + lo) :: from_hex rest
      | _, _ => []
      end
  | _ => []
  end.

(** [buf.toString('hex')] *)
Fixpoint to_hex (bytes : list Z) : string :=
  match bytes with
  | [] => EmptyString
  | b :: rest => String (hex_digit (b / 16)) (String (hex_digit (b mod 16)) (to_hex rest))
  end.

(** [s.slice(2)] *)
Definition slice2 (s : string) : string :=
  match s with
  | String _ (String _ rest) => rest
  | _ => EmptyString
  end.

(** [function reverse32(hex)] *)
Definition reverse32 (hex : string) : string :=
  let b := from_hex (slice2 hex) in
  ("0x" ++ to_hex (rev b))%string.

End Hex.

(** ** The recorder contract, at the end of [relayer/submit.js]

    A [uint256], a [bytes32] and an [address] are integers of [Z] in their
    range; a mapping is a total function, zero where nothing was stored. *)

Module Recorder.

Definition wrap256 (x : Z) : Z := x mod 2 ^ 256.

(** [x << n] on [uint256]: the bits shifted past bit 255 are lost. *)
Definition shl (x n : Z) : Z := wrap256 (Z.shiftl x n).

(** The masks of [_changeEndianess]. *)
Definition mask8_hi : Z :=
  0xFF00FF00FF00FF00FF00FF00FF00FF00FF00FF00FF00FF00FF00FF00FF00FF00.
Definition mask8_lo : Z :=
  0x00FF00FF00FF00FF00FF00FF00FF00FF00FF00FF00FF00FF00FF00FF00FF00FF.
Definition mask16_hi : Z :=
  0xFFFF0000FFFF0000FFFF0000FFFF0000FFFF0000FFFF0000FFFF0000FFFF0000.
Definition mask16_lo : Z :=
  0x0000FFFF0000FFFF0000FFFF0000FFFF0000FFFF0000FFFF0000FFFF0000FFFF.
Definition mask32_hi : Z :=
  0xFFFFFFFF00000000FFFFFFFF00000000FFFFFFFF00000000FFFFFFFF00000000.
Definition mask32_lo : Z :=
  0x00000000FFFFFFFF00000000FFFFFFFF00000000FFFFFFFF00000000FFFFFFFF.
Definition mask64_hi : Z :=
  0xFFFFFFFFFFFFFFFF0000000000000000FFFFFFFFFFFFFFFF0000000000000000.
Definition mask64_lo : Z :=
  0x0000000000000000FFFFFFFFFFFFFFFF0000000000000000FFFFFFFFFFFFFFFF.

(** One line [v = ((v & hi) >> k) | ((v & lo) << k)]. *)
Definition swap_step (hi lo k v : Z) : Z :=
  Z.lor (Z.shiftr (Z.land v hi) k) (shl (Z.land v lo) k).

(** [function _changeEndianess(uint256 input) internal pure returns (uint256 v)] *)
Definition _changeEndianess (input : Z) : Z :=
  let v := input in
  let v := swap_step mask8_hi mask8_lo 8 v in
  let v := swap_step mask16_hi mask16_lo 16 v in
  let v := swap_step mask32_hi mask32_lo 32 v in
  let v := swap_step mask64_hi mask64_lo 64 v in
  Z.lor (Z.shiftr v 128) (shl v 128).

(** The storage of [EmlProofRecorder]. *)
Record storage : Type := {
  zkVerify : Z;
  vkey : Z;
  statementToTxHash : Z -> Z
}.

(** [event ProofRecorded(statement, relayerTxHash, sender, recordedAt)] *)
Record ProofRecorded : Type := {
  statement : Z;
  relayerTxHash : Z;
  sender : Z;
  recordedAt : Z
}.

(** [msg.sender] and [block.timestamp] *)
Record context : Type := { msg_sender : Z; block_timestamp : Z }.

(** The arguments that both recording functions pass on to zkVerify. *)
Record aggregation : Type := {
  aggregationId : Z;
  domainId : Z;
  merklePath : list Z;
  leafCount : Z;
  index : Z
}.

Definition store (m : Z -> Z) (key value : Z) : Z -> Z :=
  fun k => if k =? key then value else m k.

Section Contract.
  (** [keccak256(abi.encodePacked(w1, ..., wn))] over 32-byte words. *)
  Variable keccak256 : list Z -> Z.
  (** [keccak256(abi.encodePacked("groth16"))] and [sha256(abi.encodePacked(""))] *)
  Variable PROVING_SYSTEM_ID : Z.
  Variable VERSION_HASH : Z.
  (** [IVerifyProofAggregation(zkVerify).verifyProofAggregation(...)], a
      [view] function of the contract at address [zkVerify]:
      [verifyProofAggregation zkVerify domainId aggregationId leaf merklePath
      leafCount index]. *)
  Variable verifyProofAggregation : Z -> Z -> Z -> Z -> list Z -> Z -> Z -> bool.

(** [constructor(address _zkVerify, bytes32 _vkey)]; [None] is a revert. *)
Definition constructor (_zkVerify _vkey : Z) : option storage :=
  if _zkVerify =? 0 then None
  else Some {| zkVerify := _zkVerify; vkey := _vkey; statementToTxHash := fun _ => 0 |}.

(** The tail shared by the two recording functions, from the call to
    zkVerify on. *)
Definition verify_and_store (ctx : context) (st : storage) (leaf : Z)
           (agg : aggregation) (tx : Z) : option (storage * ProofRecorded) :=
  let ok := verifyProofAggregation (zkVerify st) (domainId agg) (aggregationId agg)
              leaf (merklePath agg) (leafCount agg) (index agg) in
  if negb ok then None
  else if negb (statementToTxHash st leaf =? 0) then None
  else Some ({| zkVerify := zkVerify st; vkey := vkey st;
                statementToTxHash := store (statementToTxHash st) leaf tx |},
             {| statement := leaf; relayerTxHash := tx; sender := msg_sender ctx;
                recordedAt := block_timestamp ctx mod 2 ^ 64 |}).

(** [function recordAfterAggregation(...) external] *)
Definition recordAfterAggregation (ctx : context) (st : storage)
           (publicInputsHash : Z) (agg : aggregation) (tx : Z)
  : option (storage * ProofRecorded) :=
  if tx =? 0 then None
  else
    let leaf := keccak256 [PROVING_SYSTEM_ID; vkey st; VERSION_HASH;
                           keccak256 [_changeEndianess publicInputsHash]] in
    verify_and_store ctx st leaf agg tx.

(** [function recordWithLeaf(...) external] *)
Definition recordWithLeaf (ctx : context) (st : storage)
           (leaf : Z) (agg : aggregation) (tx : Z)
  : option (storage * ProofRecorded) :=
  if tx =? 0 then None
  else verify_and_store ctx st leaf agg tx.

(** [function isRecorded(bytes32 statement) external view returns (bool)] *)
Definition isRecorded (st : storage) (statement : Z) : bool :=
  negb (statementToTxHash st statement =? 0).

(** A transaction sent to the contract. *)
Inductive call : Type :=
| RecordAfterAggregation (publicInputsHash : Z) (agg : aggregation) (tx : Z)
| RecordWithLeaf (leaf : Z) (agg : aggregation) (tx : Z).

Definition agg_of (c : call) : aggregation :=
  match c with
  | RecordAfterAggregation _ agg _ => agg
  | RecordWithLeaf _ agg _ => agg
  end.

Definition tx_of (c : call) : Z :=
  match c with
  | RecordAfterAggregation _ _ tx => tx
  | RecordWithLeaf _ _ tx => tx
  end.

(** The leaf a call is about. *)
Definition leaf_of (st : storage) (c : call) : Z :=
  match c with
  | RecordAfterAggregation h _ _ =>
      keccak256 [PROVING_SYSTEM_ID; vkey st; VERSION_HASH; keccak256 [_changeEndianess h]]
  | RecordWithLeaf leaf _ _ => leaf
  end.

Definition execute (ctx : context) (st : storage) (c : call)
  : option (storage * ProofRecorded) :=
  match c with
  | RecordAfterAggregation h agg tx => recordAfterAggregation ctx st h agg tx
  | RecordWithLeaf leaf agg tx => recordWithLeaf ctx st leaf agg tx
  end.

(** The storage after a list of transactions; a reverted one changes
    nothing. *)
Fixpoint after (st : storage) (txs : list (context * call)) : storage :=
  match txs with
  | [] => st
  | (ctx, c) :: rest =>
      match execute ctx st c with
      | Some (st', _) => after st' rest
      | None => after st rest
      end
  end.

(** zkVerify accepts the leaf of a call with the aggregation data of the
    call. *)
Definition accepted (st : storage) (c : call) : bool :=
  verifyProofAggregation (zkVerify st) (domainId (agg_of c)) (aggregationId (agg_of c))
    (leaf_of st c) (merklePath (agg_of c)) (leafCount (agg_of c)) (index (agg_of c)).
End Contract.

End Recorder.

(** * Notions used to state the properties *)

(** ** The rolling commitment as the specification words it *)

Module Spec.

(** "there are [ceil(MAX/31)] chunks" *)
Definition numChunks (MAX : nat) : nat := (MAX + 30) / 31.

(** "a contiguous group of 31 buffer entries", in index order; "the final
    chunk is zero-padded on the right".  Chunks are numbered from [0]. *)
Definition chunk (buffer : list Z) (k : nat) : list Z :=
  let entries := firstn 31 (skipn (31 * k) buffer) in
  entries ++ repeat 0 (31 - List.length entries).

(** "[out = Σ b[i] * 256^i] (little-endian positional encoding)" *)
Definition packed (b : list Z) : Z :=
  fold_right Z.add 0 (map (fun i => nth i b 0 * 256 ^ Z.of_nat i) (seq 0 31)).

Section Fold.
  Variable p : Z.
  Variable Compress : Zmod p -> Zmod p -> Zmod p.

  (** "[h_0 = 0], [h_k = Compress(h_{k-1}, packed_k)] for [k = 1..numChunks]" *)
Fixpoint h (buffer : list Z) (k : nat) : Zmod p :=
    match k with
    | O => Zmod.zero
    | S k' => Compress (h buffer k') (Zmod.of_Z p (packed (chunk buffer k')))
    end.

  (** "[commitment = h_{numChunks}]" *)
Definition commitment (MAX : nat) (buffer : list Z) : Zmod p :=
    h buffer (numChunks MAX).
End Fold.

End Spec.

(** ** From [input.json] to an assignment of the main component

    The witness calculator reads every decimal string of [input.json] as a
    field element and runs the [<--] assignments of [Num2Bits]. *)

Module Witness.
Import R1CS Circuit.

Definition to_signals (p : Z) (input : Builder.Input) : Signals p :=
  let fe := map (Zmod.of_Z p) in
  {| eml_commitment := Zmod.of_Z p (Builder.eml_commitment input);
     eml := fe (Builder.eml input);
     from_bytes := fe (Builder.from_bytes input);
     to_bytes := fe (Builder.to_bytes input);
     atg_bytes := fe (Builder.atg_bytes input);
     sel_from := fe (Builder.sel_from input);
     sel_to := fe (Builder.sel_to input);
     sel_atg := fe (Builder.sel_atg input);
     n2b_out := fun c k =>
       Num2Bits_witness p 8 (get (packer_bytes p 8192 (fe (Builder.eml input)) c) k) |}.

End Witness.

(** ** Fixed-width digits and big-endian bytes *)

Module HexNotions.
Import Hex.

(** The [k] low hexadecimal digits of [v], most significant first. *)
Fixpoint fixed_hex (k : nat) (v : Z) : string :=
  match k with
  | O => EmptyString
  | S k' => (fixed_hex k' (v / 16) ++ String (hex_digit (v mod 16)) EmptyString)%string
  end.

(** The [m] low bytes of [v], most significant first: the [bytes32] that
    [abi.encodePacked] makes of a [uint256] when [m] is 32. *)
Fixpoint be_bytes (m : nat) (v : Z) : list Z :=
  match m with
  | O => []
  | S m' => be_bytes m' (v / 256) ++ [v mod 256]
  end.

(** Byte [i] of [v], counted from the least significant one. *)
Definition byte_at (v i : Z) : Z := (v / 256 ^ i) mod 256.

(** Where [_changeEndianess] takes bit [n] of its result from. *)
Definition mirrored (n : Z) : Z := 8 * (31 - n / 8) + n mod 8.

(** The integers [0], ..., [255]. *)
Definition bit_positions : list Z := map Z.of_nat (seq 0 256).

(** Where a line [((v & hi) >> k) | ((v & lo) << k)] takes bit [n] from. *)
Definition source_bit (hi k n : Z) : Z :=
  if Z.testbit hi (n + k) then n + k else n - k.

(** At every position, exactly one of the two masks lets a bit through,
    and that bit comes from inside the word. *)
Definition masks_split (hi lo k : Z) : bool :=
  forallb (fun n => xorb (Z.testbit hi (n + k)) (Z.testbit lo (n - k))
                    && (0 <=? source_bit hi k n) && (source_bit hi k n <? 256))
          bit_positions.

(** The last line swaps the two halves. *)
Definition source_half (n : Z) : Z := if n <? 128 then n + 128 else n - 128.

(** The five lines of [_changeEndianess], followed from bit [n] of the
    result back to the input. *)
Definition source_of_result (n : Z) : Z :=
  source_bit Recorder.mask8_hi 8
    (source_bit Recorder.mask16_hi 16
       (source_bit Recorder.mask32_hi 32
          (source_bit Recorder.mask64_hi 64 (source_half n)))).

End HexNotions.

(** ** Selectors, positional sums, occurrences *)

Module Notions.
Import R1CS Circuit.

(** The integer sum of [f] over a list of indices. *)
Definition Zsum (f : nat -> Z) (l : list nat) : Z :=
  fold_right (fun t acc => f t + acc) 0 l.

(** [sel] holds a one at [t] and zeros everywhere else. *)
Definition one_hot_at {p} (sel : list (Zmod p)) (t : nat) : Prop :=
  get sel t = Zmod.one /\ forall u, u <> t -> get sel u = Zmod.zero.

(** The selector entries of the valid window, as integers. *)
Definition window_sum {p} (sel : list (Zmod p)) (POSITIONS : nat) : Z :=
  Zsum (fun t => Zmod.to_Z (get sel t)) (seq 0 POSITIONS).

(** In the main component, the literal [lit] of length [LIT_LEN] is read
    off the buffer at the one position that [sel] selects, and is made of
    bytes. *)
Definition literal_in_buffer {p} (LIT_LEN : nat) (eml lit sel : list (Zmod p)) : Prop :=
  exists t, (t + LIT_LEN <= 8192)%nat /\ get sel t = Zmod.one /\
    (forall t', (t' < 8192)%nat -> get sel t' = Zmod.one -> t' = t) /\
    forall i, (i < LIT_LEN)%nat ->
      get lit i = get eml (t + i) /\ (0 <= Zmod.to_Z (get lit i) <= 255)%Z.

(** [f s + B * f (s+1) + ... + B^(n-1) * f (s+n-1)] *)
Fixpoint polyZ (B : Z) (f : nat -> Z) (s n : nat) : Z :=
  match n with
  | O => 0
  | S n' => f s + B * polyZ B f (S s) n'
  end.

(** The same sum in the field. *)
Fixpoint polyF {p} (B : Zmod p) (g : nat -> Zmod p) (s n : nat) : Zmod p :=
  match n with
  | O => Zmod.zero
  | S n' => Zmod.add (g s) (Zmod.mul B (polyF B g (S s) n'))
  end.

(** The first input of [H[i2]]. *)
Definition H_prev {p} (Poseidon : Zmod p -> Zmod p -> Zmod p)
           (packers_out : nat -> Zmod p) (i2 : nat) : Zmod p :=
  match i2 with O => Zmod.zero | S j => H_out p Poseidon packers_out j end.

(** The builder's loop, iteration by iteration: [n] steps from offset
    [off]. *)
Fixpoint js_chain {p} (poseidon : Zmod p -> Zmod p -> Zmod p) (eml : list Z)
         (off n : nat) (h : Z) : Z :=
  match n with
  | O => h
  | S n' =>
      let chunk := Builder.pack31LE (Builder.slice eml off (off + 31)) in
      js_chain poseidon eml (off + 31) n'
               (Zmod.to_Z (poseidon (Zmod.of_Z p h) (Zmod.of_Z p chunk)))
  end.

(** [needle] is found in [buf] at index [i]. *)
Definition occurs_at (buf needle : list Z) (i : nat) : Prop :=
  firstn (List.length needle) (skipn i buf) = needle.

Definition occurs (buf needle : list Z) : Prop := exists i, occurs_at buf needle i.

(** [i] is the lowest index at which [needle] is found in [buf]. *)
Definition first_occurrence (buf needle : list Z) (i : nat) : Prop :=
  occurs_at buf needle i /\ forall j, (j < i)%nat -> ~ occurs_at buf needle j.

(** [sel] has [MAX] entries: a one at [i], zeros elsewhere. *)
Definition one_hot_list (sel : list Z) (i : nat) : Prop :=
  List.length sel = Builder.MAX /\ (i < Builder.MAX)%nat /\ nth i sel 0 = 1 /\
  forall j, j <> i -> nth j sel 0 = 0.

End Notions.

(** ** A small prime to run the circuit on

    The theorems hold for every prime; their instances below are evaluated
    over the Fermat prime 65537, large enough for the 8192 positions of the
    main component. *)

Module SmallPrime.

Definition q : Z := 65537.

(** Trial division by [d], [d + 1], ..., [fuel] candidates in all. *)
Fixpoint no_divisor_from (fuel : nat) (d n : Z) : bool :=
  match fuel with
  | O => true
  | S fuel' => negb (n mod d =? 0) && no_divisor_from fuel' (d + 1) n
  end.

(** Trial division by every [d] with [2 <= d < n]. *)
Definition no_divisor (n : Z) : bool := no_divisor_from (Z.to_nat (n - 2)) 2 n.

(** A stand-in for the compression function, to evaluate instances with. *)
Definition toy_poseidon (a b : Zmod q) : Zmod q :=
  Zmod.of_Z q (Zmod.to_Z a * Zmod.to_Z a * 3 + Zmod.to_Z b * 7 + 11).

Definition fe (z : Z) : Zmod q := Zmod.of_Z q z.


End SmallPrime.

(** ** Sample documents, assignments and answers of the relayer *)

Module Samples.
Import R1CS Circuit SmallPrime.

(** The order of the scalar field of bn128, the curve the relayer names. *)
Definition bn128_r : Z :=
  21888242871839275222246405745257275088548364400416034343698204186575808495617.

(** A stand-in for the compression function over any modulus. *)
Definition toy_compress (p : Z) (a b : Zmod p) : Zmod p :=
  Zmod.of_Z p (Zmod.to_Z a * 3 + Zmod.to_Z b * 7 + 11).

(** A message with none of the three markers. *)
Definition plain_message : list Byte.byte :=
  list_byte_of_string "Subject: Great news. A new offer awaits.".

(** An [input.json] over [raw] whose literals are cut out of the buffer
    itself, at [t_from], [t_to] and [t_atg]. *)
Definition substituted (h : Z) (raw : list Byte.byte) (t_from t_to t_atg : nat)
  : Builder.Input :=
  let eml := Builder.padded raw in
  {| Builder.eml_commitment := h;
     Builder.eml := eml;
     Builder.from_bytes := Builder.slice eml t_from (t_from + 5);
     Builder.to_bytes := Builder.slice eml t_to (t_to + 3);
     Builder.atg_bytes := Builder.slice eml t_atg (t_atg + 10);
     Builder.sel_from := Builder.oneHot Builder.MAX (Z.of_nat t_from);
     Builder.sel_to := Builder.oneHot Builder.MAX (Z.of_nat t_to);
     Builder.sel_atg := Builder.oneHot Builder.MAX (Z.of_nat t_atg) |}.

(** The relayer never reports the job as aggregated. *)
Definition always_pending : nat -> string := fun _ => "Pending"%string.

(** The relayer reports the job as aggregated from its answer [n] on. *)
Definition aggregated_from (n : nat) : nat -> string :=
  fun k => if (k <? n)%nat then "Pending"%string else "Aggregated"%string.

(** A buffer of eight entries that holds the literal [9; 11; 13] at
    index 2. *)
Definition eml8 : list (Zmod q) := map fe [5; 7; 9; 11; 13; 2; 4; 6]%Z.
Definition lit3 : list (Zmod q) := map fe [9; 11; 13]%Z.
Definition sel_at (n t : nat) : list (Zmod q) :=
  map fe (Builder.set_nth (repeat 0%Z n) t 1%Z).
Definition sel_zero : list (Zmod q) := map fe (repeat 0%Z 8).
Definition sel_two : list (Zmod q) := map fe [0; 1; 1; 0; 0; 0; 0; 0]%Z.

(** A message with the three markers. *)
Definition gmail_message : list Byte.byte :=
  list_byte_of_string "From: alice@example.org To: bob@gmail.com Subject: hi".

(** The [input.json] of a message, when the builder writes one. *)
Definition written (raw : list Byte.byte) : Builder.Input :=
  match Builder.run q toy_poseidon raw with
  | Some (Builder.Written input) => input
  | _ => substituted 0 raw 0 0 0
  end.

(** An assignment whose buffer starts with the value 256. *)
Definition wide_entry : Signals q :=
  {| eml_commitment := fe 0; eml := [fe 256];
     from_bytes := []; to_bytes := []; atg_bytes := [];
     sel_from := []; sel_to := []; sel_atg := [];
     n2b_out := fun _ _ => [] |}.


(** Stand-ins for keccak256 and for the zkVerify contract. *)
Definition toy_keccak (words : list Z) : Z :=
  fold_left (fun acc w => (acc * 31 + w + 7) mod 2 ^ 256) words 0.

Definition toy_verify (zkVerify domainId aggregationId leaf : Z) (merklePath : list Z)
           (leafCount index : Z) : bool :=
  Z.even leaf && (index <? leafCount).

Definition sample_aggregation : Recorder.aggregation :=
  {| Recorder.aggregationId := 5; Recorder.domainId := 113;
     Recorder.merklePath := [1; 2]; Recorder.leafCount := 8; Recorder.index := 3 |}.

Definition sample_context : Recorder.context :=
  {| Recorder.msg_sender := 42; Recorder.block_timestamp := 1700000000 |}.

Definition fresh_storage : Recorder.storage :=
  {| Recorder.zkVerify := 0x201B6ba8EA862d83AAA03CFbaC962890c7a4d195;
     Recorder.vkey := 77;
     Recorder.statementToTxHash := fun _ => 0 |}.

(** The storage once leaf 10 is recorded with the hash 99. *)
Definition storage_with_10 : Recorder.storage :=
  Recorder.after toy_keccak 1 2 toy_verify fresh_storage
    [(sample_context, Recorder.RecordWithLeaf 10 sample_aggregation 99)].

(** Two more transactions: leaf 10 again, and a hash of public inputs. *)
Definition later_transactions : list (Recorder.context * Recorder.call) :=
  [(sample_context, Recorder.RecordWithLeaf 10 sample_aggregation 55);
   (sample_context, Recorder.RecordAfterAggregation 4 sample_aggregation 66)].

End Samples.

(** * Properties *)

(** ** Constraints and field arithmetic *)

Module R1CSFacts.
Import R1CS Notions.

(** The size of the main component, for [lia]. *)
Lemma of_nat_8192 : Z.of_nat 8192 = 8192.
Proof. vm_compute. reflexivity. Qed.

Ltac size_lia := pose proof of_nat_8192; lia.

Section Facts.
  Variable p : Z.
  Hypothesis p_prime : Z.prime p.
  Abbreviation F := (Zmod p).

Lemma holds_iff (a b : F) : holds (Ceq a b) = true <-> a = b.
  Proof. unfold holds; simpl. apply Zmod.eqb_eq. Qed.

Lemma satisfied_app (cs1 cs2 : list (constraint p)) :
    satisfied (cs1 ++ cs2) = true <-> satisfied cs1 = true /\ satisfied cs2 = true.
  Proof. unfold satisfied. rewrite forallb_app. apply andb_true_iff. Qed.

Lemma satisfied_cons (c : constraint p) cs :
    satisfied (c :: cs) = true <-> holds c = true /\ satisfied cs = true.
  Proof. unfold satisfied. simpl. apply andb_true_iff. Qed.

Lemma satisfied_map {A} (f : A -> constraint p) (l : list A) :
    satisfied (map f l) = true <-> forall x, In x l -> holds (f x) = true.
  Proof.
    unfold satisfied. rewrite forallb_forall. split.
    - intros H x Hx. apply H, in_map, Hx.
    - intros H c Hc. apply in_map_iff in Hc. destruct Hc as (x & <- & Hx). auto.
  Qed.

Lemma satisfied_flat_map {A} (f : A -> list (constraint p)) (l : list A) :
    satisfied (flat_map f l) = true <-> forall x, In x l -> satisfied (f x) = true.
  Proof.
    induction l as [|a l IH]; simpl.
    - split; [intros _ x []|reflexivity].
    - rewrite satisfied_app, IH. split.
      + intros [Ha Hl] x [<-|Hx]; auto.
      + intros H. split; [|intros x Hx]; apply H; auto.
  Qed.

Lemma not_satisfied_iff (cs : list (constraint p)) : satisfied cs = false <-> satisfied cs <> true.
  Proof. destruct (satisfied cs); split; congruence. Qed.

Lemma p_ge_2 : 2 <= p.
  Proof. apply Z.prime_ge_2, p_prime. Qed.

Lemma to_Z_one : Zmod.to_Z (Zmod.one : F) = 1.
  Proof. apply Zmod.unsigned_1_pos, p_ge_2. Qed.

Lemma one_neq_zero : (Zmod.one : F) <> Zmod.zero.
  Proof. apply Zmod.one_neq_zero. pose proof p_ge_2. lia. Qed.

Lemma range (x : F) : 0 <= Zmod.to_Z x < p.
  Proof. apply Zmod.unsigned_pos_bound. pose proof p_ge_2. lia. Qed.

Lemma mul_eq_zero (a b : F) :
    Zmod.mul a b = Zmod.zero -> a = Zmod.zero \/ b = Zmod.zero.
  Proof.
    pose proof p_ge_2 as Hp. intros H.
    apply (f_equal Zmod.to_Z) in H.
    rewrite Zmod.unsigned_mul, Zmod.unsigned_0 in H.
    apply Z.mod_divide in H; [|lia].
    apply (Z.divide_prime_mul _ _ _ p_prime) in H.
    destruct H as [H|H]; [left|right]; apply Zmod.unsigned_0_iff;
      apply Z.mod_divide in H; try lia;
      rewrite Z.mod_small in H by apply range; exact H.
  Qed.

  (** [s * (s - 1) === 0] says that [s] is a bit. *)
Lemma bit_constraint (s : F) :
    Zmod.mul s (Zmod.sub s Zmod.one) = Zmod.zero <-> s = Zmod.zero \/ s = Zmod.one.
  Proof.
    split.
    - intros H. apply mul_eq_zero in H. destruct H as [H|H]; [left; exact H|].
      right. apply Zmod.sub_eq_0, H.
    - intros [->| ->].
      + apply Zmod.mul_0_l.
      + replace (Zmod.sub (Zmod.one : F) Zmod.one) with (Zmod.zero : F).
        * apply Zmod.mul_0_r.
        * symmetry. apply Zmod.sub_eq_0_iff. reflexivity.
  Qed.

  (** [s * (a - b) === 0] holds when the selector bit is clear, and forces
      [a = b] when it is set. *)
Lemma gated_eq_0 (a b : F) : Zmod.mul Zmod.zero (Zmod.sub a b) = Zmod.zero.
  Proof. apply Zmod.mul_0_l. Qed.

Lemma gated_eq_1 (a b : F) :
    Zmod.mul Zmod.one (Zmod.sub a b) = Zmod.zero <-> a = b.
  Proof. rewrite Zmod.mul_1_l. apply Zmod.sub_eq_0_iff. Qed.
End Facts.

End R1CSFacts.

(** ** The literal occurrence gadget *)

Module LiteralFacts.
Import R1CS R1CSFacts Circuit Notions.

Section Facts.
  Variable p : Z.
  Hypothesis p_prime : Z.prime p.
  Abbreviation F := (Zmod p).
  Local Open Scope Zmod_scope.

Lemma fold_sum (g : nat -> F) (l : list nat) (a : F) :
    Zmod.to_Z (fold_left (fun acc t => acc + g t) l a)
    = ((Zmod.to_Z a + Zsum (fun t => Zmod.to_Z (g t)) l) mod p)%Z.
  Proof.
    revert a. induction l as [|t l IH]; intros a; simpl.
    - rewrite Z.add_0_r. symmetry. apply Zmod.mod_unsigned.
    - rewrite IH, Zmod.unsigned_add.
      rewrite Zplus_mod_idemp_l. f_equal. lia.
  Qed.

Lemma Zsum_bits (g : nat -> F) (l : list nat) :
    (forall t, In t l -> g t = 0 \/ g t = 1) ->
    (0 <= Zsum (fun t => Zmod.to_Z (g t)) l <= Z.of_nat (List.length l))%Z.
  Proof.
    induction l as [|t l IH]; intros Hb.
    - simpl. lia.
    - assert (Hl : forall t, In t l -> g t = 0 \/ g t = 1)
        by (intros; apply Hb; right; assumption).
      specialize (IH Hl). change (Zsum (fun t0 => Zmod.to_Z (g t0)) (t :: l))
        with (Zmod.to_Z (g t) + Zsum (fun t0 => Zmod.to_Z (g t0)) l)%Z.
      rewrite length_cons, Nat2Z.inj_succ.
      destruct (Hb t (or_introl eq_refl)) as [-> | ->].
      + rewrite Zmod.unsigned_0. lia.
      + rewrite (to_Z_one p p_prime). lia.
  Qed.

Lemma Zsum_zero (g : nat -> F) (l : list nat) :
    (forall t, In t l -> g t = 0) -> Zsum (fun t => Zmod.to_Z (g t)) l = 0%Z.
  Proof.
    induction l as [|t l IH]; intros Hz; simpl; [reflexivity|].
    rewrite (Hz t (or_introl eq_refl)), Zmod.unsigned_0, IH; [reflexivity|].
    intros; apply Hz; right; assumption.
  Qed.

  (** A sum of bits that is not zero has a one among them. *)
Lemma Zsum_bits_pos (g : nat -> F) (l : list nat) :
    (forall t, In t l -> g t = 0 \/ g t = 1) ->
    Zsum (fun t => Zmod.to_Z (g t)) l <> 0%Z ->
    exists t, In t l /\ g t = 1.
  Proof.
    induction l as [|t l IH]; intros Hb Hs.
    - simpl in Hs. congruence.
    - destruct (Hb t (or_introl eq_refl)) as [H0|H1].
      + destruct IH as (u & Hu & Hg).
        * intros; apply Hb; right; assumption.
        * simpl in Hs. rewrite H0, Zmod.unsigned_0 in Hs. exact Hs.
        * exists u. split; [right|]; assumption.
      + exists t. split; [left; reflexivity|assumption].
  Qed.

  (** Two ones among the bits make their sum at least two. *)
Lemma Zsum_two_ones (g : nat -> F) (l : list nat) (t1 t2 : nat) :
    NoDup l -> (forall t, In t l -> g t = 0 \/ g t = 1) ->
    In t1 l -> In t2 l -> t1 <> t2 -> g t1 = 1 -> g t2 = 1 ->
    (2 <= Zsum (fun t => Zmod.to_Z (g t)) l)%Z.
  Proof.
    intros Hnd Hb H1 H2 Hne Hg1 Hg2.
    assert (Hone : forall u l', (forall t, In t l' -> g t = 0 \/ g t = 1) ->
              In u l' -> g u = 1 -> (1 <= Zsum (fun t => Zmod.to_Z (g t)) l')%Z).
    { intros u l' Hb' Hu Hgu. induction l' as [|a l' IH]; [destruct Hu|].
      assert (Hl' : forall t, In t l' -> g t = 0 \/ g t = 1)
        by (intros; apply Hb'; right; assumption).
      pose proof (Zsum_bits g l' Hl') as Hr.
      pose proof (range p p_prime (g a)) as Ha. simpl.
      destruct Hu as [->|Hu].
      - rewrite Hgu, (to_Z_one p p_prime). lia.
      - specialize (IH Hl' Hu). lia. }
    induction l as [|a l IH]; [destruct H1|].
    assert (Hl : forall t, In t l -> g t = 0 \/ g t = 1)
      by (intros; apply Hb; right; assumption).
    inversion Hnd as [|? ? Hnotin Hnd']; subst. simpl.
    pose proof (range p p_prime (g a)) as Ha.
    destruct H1 as [->|H1], H2 as [->|H2].
    - congruence.
    - rewrite Hg1, (to_Z_one p p_prime). pose proof (Hone t2 l Hl H2 Hg2). lia.
    - rewrite Hg2, (to_Z_one p p_prime). pose proof (Hone t1 l Hl H1 Hg1). lia.
    - specialize (IH Hnd' Hl H1 H2). lia.
  Qed.

  (** The sum of a one-hot selector over indices that hold its position. *)
Lemma Zsum_one_hot (g : nat -> F) (l : list nat) (t : nat) :
    NoDup l -> In t l -> g t = 1 -> (forall u, u <> t -> g u = 0) ->
    Zsum (fun t => Zmod.to_Z (g t)) l = 1%Z.
  Proof.
    intros Hnd Hin H1 H0. induction l as [|a l IH]; [destruct Hin|].
    inversion Hnd as [|? ? Hnotin Hnd']; subst. simpl.
    destruct Hin as [->|Hin].
    - rewrite H1, (to_Z_one p p_prime), Zsum_zero; [reflexivity|].
      intros u Hu. apply H0. intros ->. contradiction.
    - rewrite (H0 a), Zmod.unsigned_0, IH by (auto; intros ->; contradiction).
      reflexivity.
  Qed.

  (** What the constraints of [LiteralAtIndex] say, one loop at a time. *)
Lemma LiteralAtIndex_sat (MAX_EML_LEN LIT_LEN : nat) (eml lit sel : list F) :
    let POSITIONS := (MAX_EML_LEN + 1 - LIT_LEN)%nat in
    satisfied (snd (LiteralAtIndex p MAX_EML_LEN LIT_LEN eml lit sel)) = true <->
    (forall t, (t < POSITIONS)%nat -> get sel t = 0 \/ get sel t = 1) /\
    (window_sum sel POSITIONS mod p = 1)%Z /\
    (forall u, (POSITIONS <= u < MAX_EML_LEN)%nat -> get sel u = 0) /\
    (forall i t2, (i < LIT_LEN)%nat -> (t2 < POSITIONS)%nat ->
                  get sel t2 * (get eml (t2 + i) - get lit i) = 0).
  Proof.
    intros POSITIONS. unfold LiteralAtIndex. cbn [snd]. fold POSITIONS.
    rewrite !satisfied_app, satisfied_cons, !satisfied_map, satisfied_flat_map.
    rewrite holds_iff.
    assert (Hsum : fold_left (fun sumSel t => sumSel + get sel t) (seq 0 POSITIONS) 0 = 1
                   <-> (window_sum sel POSITIONS mod p = 1)%Z).
    { rewrite <- Zmod.unsigned_inj_iff, fold_sum, Zmod.unsigned_0, (to_Z_one p p_prime).
      reflexivity. }
    rewrite Hsum. clear Hsum.
    split.
    - intros (Hb & (Hs & _) & Hz & Hm). repeat split.
      + intros t Ht. apply (bit_constraint p p_prime), holds_iff, Hb, in_seq. lia.
      + exact Hs.
      + intros u Hu. apply holds_iff, Hz, in_seq. lia.
      + intros i t2 Hi Ht2.
        assert (Hi' : In i (seq 0 LIT_LEN)) by (apply in_seq; lia).
        specialize (Hm i Hi'). rewrite satisfied_map in Hm.
        apply holds_iff, Hm, in_seq. lia.
    - intros (Hb & Hs & Hz & Hm). repeat split.
      + intros t Ht. apply in_seq in Ht.
        apply holds_iff, (bit_constraint p p_prime), Hb. lia.
      + exact Hs.
      + intros u Hu. apply in_seq in Hu. apply holds_iff, Hz. lia.
      + intros i Hi. apply in_seq in Hi. rewrite satisfied_map.
        intros t2 Ht2. apply in_seq in Ht2. apply holds_iff, Hm; lia.
  Qed.

  (** A satisfying assignment selects a position where the literal occurs. *)
Lemma LiteralAtIndex_selected (MAX_EML_LEN LIT_LEN : nat) (eml lit sel : list F) :
    satisfied (snd (LiteralAtIndex p MAX_EML_LEN LIT_LEN eml lit sel)) = true ->
    exists t, (t + LIT_LEN <= MAX_EML_LEN)%nat /\ get sel t = 1 /\
              forall i, (i < LIT_LEN)%nat -> get eml (t + i) = get lit i.
  Proof.
    set (POSITIONS := (MAX_EML_LEN + 1 - LIT_LEN)%nat).
    pose proof (p_ge_2 p p_prime) as Hp.
    intros Hsat. apply LiteralAtIndex_sat in Hsat.
    fold POSITIONS in Hsat. destruct Hsat as (Hb & Hs & _ & Hm).
    destruct (Zsum_bits_pos (get sel) (seq 0 POSITIONS)) as (t & Ht & H1).
    - intros t Ht. apply Hb. apply in_seq in Ht. lia.
    - intros H0. unfold window_sum in Hs. rewrite H0, Z.mod_0_l in Hs; lia.
    - apply in_seq in Ht. exists t. split; [lia|]. split; [exact H1|].
      intros i Hi. apply (gated_eq_1 p). rewrite <- H1. apply Hm; lia.
  Qed.

  (** Below the prime, the bits of the window add up to one over the
      integers, not only in the field. *)
Lemma LiteralAtIndex_window (MAX_EML_LEN LIT_LEN : nat) (eml lit sel : list F) :
    (Z.of_nat MAX_EML_LEN < p)%Z ->
    let POSITIONS := (MAX_EML_LEN + 1 - LIT_LEN)%nat in
    satisfied (snd (LiteralAtIndex p MAX_EML_LEN LIT_LEN eml lit sel)) = true ->
    (forall t, (t < POSITIONS)%nat -> get sel t = 0 \/ get sel t = 1) /\
    window_sum sel POSITIONS = 1%Z /\
    (forall u, (POSITIONS <= u < MAX_EML_LEN)%nat -> get sel u = 0).
  Proof.
    intros Hsize POSITIONS Hsat. pose proof (p_ge_2 p p_prime) as Hp.
    apply LiteralAtIndex_sat in Hsat.
    fold POSITIONS in Hsat. destruct Hsat as (Hb & Hs & Hz & _).
    assert (Hbits : forall t, In t (seq 0 POSITIONS) -> get sel t = 0 \/ get sel t = 1).
    { intros t Ht. apply Hb. apply in_seq in Ht. lia. }
    pose proof (Zsum_bits (get sel) _ Hbits) as Hr.
    rewrite length_seq in Hr. fold (window_sum sel POSITIONS) in Hr.
    repeat split; auto.
    (* at most [MAX_EML_LEN + 1 <= p] bits: their sum is [p], or below [p] *)
    destruct (Z.eq_dec (window_sum sel POSITIONS) p) as [E|E].
    - rewrite E, Z.mod_same in Hs; lia.
    - rewrite Z.mod_small in Hs by (subst POSITIONS; lia). exact Hs.
  Qed.

  (** Hence no two entries of the selector hold a one. *)
Lemma LiteralAtIndex_unique (MAX_EML_LEN LIT_LEN : nat) (eml lit sel : list F) :
    (Z.of_nat MAX_EML_LEN < p)%Z ->
    satisfied (snd (LiteralAtIndex p MAX_EML_LEN LIT_LEN eml lit sel)) = true ->
    forall t1 t2, (t1 < MAX_EML_LEN)%nat -> (t2 < MAX_EML_LEN)%nat ->
                  get sel t1 = 1 -> get sel t2 = 1 -> t1 = t2.
  Proof.
    intros Hsize Hsat t1 t2 Ht1 Ht2 H1 H2.
    set (POSITIONS := (MAX_EML_LEN + 1 - LIT_LEN)%nat).
    destruct (LiteralAtIndex_window _ _ _ _ _ Hsize Hsat) as (Hb & Hs & Hz).
    fold POSITIONS in Hb, Hs, Hz.
    pose proof (one_neq_zero p p_prime) as H10.
    destruct (Nat.lt_ge_cases t1 POSITIONS) as [Hin1|Hout1];
      [|exfalso; apply H10; rewrite <- H1; apply Hz; lia].
    destruct (Nat.lt_ge_cases t2 POSITIONS) as [Hin2|Hout2];
      [|exfalso; apply H10; rewrite <- H2; apply Hz; lia].
    destruct (Nat.eq_dec t1 t2) as [E|Hne]; [exact E|exfalso].
    assert (Hbits : forall t, In t (seq 0 POSITIONS) -> get sel t = 0 \/ get sel t = 1).
    { intros t Ht. apply Hb. apply in_seq in Ht. lia. }
    pose proof (Zsum_two_ones (get sel) (seq 0 POSITIONS) t1 t2
                  (seq_NoDup _ _) Hbits) as Htwo.
    unfold window_sum in Hs. rewrite Hs in Htwo.
    assert (2 <= 1)%Z; [|lia].
    apply Htwo; auto; apply in_seq; lia.
  Qed.

  (** A selector one-hot at a position of the buffer where the literal
      occurs satisfies the gadget. *)
Lemma LiteralAtIndex_one_hot_sat (MAX_EML_LEN LIT_LEN : nat) (eml lit sel : list F)
        (t' : nat) :
    (t' + LIT_LEN <= MAX_EML_LEN)%nat -> one_hot_at sel t' ->
    (forall i, (i < LIT_LEN)%nat -> get eml (t' + i) = get lit i) ->
    satisfied (snd (LiteralAtIndex p MAX_EML_LEN LIT_LEN eml lit sel)) = true.
  Proof.
    set (POSITIONS := (MAX_EML_LEN + 1 - LIT_LEN)%nat).
    pose proof (p_ge_2 p p_prime) as Hp.
    intros Ht' [H1 H0] Hmatch. apply LiteralAtIndex_sat.
    fold POSITIONS. repeat split.
    - intros t _. destruct (Nat.eq_dec t t') as [->|Hne]; [right|left]; auto.
    - unfold window_sum. rewrite (Zsum_one_hot (get sel) _ t'); auto.
      + apply Z.mod_small. lia.
      + apply seq_NoDup.
      + apply in_seq. lia.
    - intros u Hu. apply H0. lia.
    - intros i t2 Hi Ht2. destruct (Nat.eq_dec t2 t') as [->|Hne].
      + rewrite H1. apply (gated_eq_1 p), Hmatch, Hi.
      + rewrite (H0 t2 Hne). apply Zmod.mul_0_l.
  Qed.
End Facts.

End LiteralFacts.

(** ** The small prime is prime *)

Module SmallPrimeFacts.
Import SmallPrime.

Lemma no_divisor_from_spec (fuel : nat) (d n e : Z) :
  no_divisor_from fuel d n = true -> d <= e < d + Z.of_nat fuel -> n mod e <> 0.
Proof.
  revert d. induction fuel as [|fuel IH]; intros d Hc He; [lia|].
  cbn [no_divisor_from] in Hc. apply andb_true_iff in Hc. destruct Hc as [Hd Hrest].
  destruct (Z.eq_dec e d) as [->|Hne].
  - intros E. rewrite E in Hd. discriminate.
  - apply (IH (d + 1)); [exact Hrest|lia].
Qed.

Lemma no_divisor_prime (n : Z) : 1 < n -> no_divisor n = true -> Z.prime n.
Proof.
  intros Hn Hc. split; [exact Hn|]. intros d Hd Hdiv.
  apply (no_divisor_from_spec _ _ _ d Hc); [lia|].
  apply Z.mod_divide; [lia|exact Hdiv].
Qed.

Lemma q_prime : Z.prime q.
Proof. apply no_divisor_prime; [reflexivity|vm_compute; reflexivity]. Qed.

End SmallPrimeFacts.

(** ** C1 and C2: what the literal occurrence gadget enforces *)

Module LiteralTheorems.
Import R1CS R1CSFacts Circuit Notions LiteralFacts.
Local Open Scope Zmod_scope.

(** C1 (literal occurrence soundness).  Over any prime field: (a) every
    assignment that satisfies the constraints of [LiteralAtIndex] has a
    position [t] of the valid window ([t + LIT_LEN <= MAX_EML_LEN]) with
    [sel[t] = 1] and [eml[t+i] = lit[i]] for every [i < LIT_LEN]; (b) a
    selector one-hot at a position whose window differs from the literal
    violates the constraints; (c) a selector one-hot at a position of the
    buffer where the literal occurs satisfies them. *)
Theorem literal_occurrence_soundness
  (p : Z) (p_prime : Z.prime p) (MAX_EML_LEN LIT_LEN : nat)
  (eml lit sel : list (Zmod p)) :
  let cs := snd (LiteralAtIndex p MAX_EML_LEN LIT_LEN eml lit sel) in
  (satisfied cs = true ->
   exists t, (t + LIT_LEN <= MAX_EML_LEN)%nat /\ get sel t = 1 /\
             forall i, (i < LIT_LEN)%nat -> get eml (t + i) = get lit i)
  /\ (forall t', one_hot_at sel t' ->
        (exists i, (i < LIT_LEN)%nat /\ get eml (t' + i) <> get lit i) ->
        satisfied cs = false)
  /\ (forall t', (t' + LIT_LEN <= MAX_EML_LEN)%nat -> one_hot_at sel t' ->
        (forall i, (i < LIT_LEN)%nat -> get eml (t' + i) = get lit i) ->
        satisfied cs = true).
Proof.
  intros cs. subst cs. set (POSITIONS := (MAX_EML_LEN + 1 - LIT_LEN)%nat).
  pose proof (p_ge_2 p p_prime) as Hp.
  split; [|split].
  - apply (LiteralAtIndex_selected p p_prime).
  - intros t' [H1 H0] (i & Hi & Hne). apply not_satisfied_iff. intros Hsat.
    apply (LiteralAtIndex_sat p p_prime) in Hsat.
    fold POSITIONS in Hsat. destruct Hsat as (Hb & Hs & Hz & Hm).
    destruct (Nat.lt_ge_cases t' POSITIONS) as [Hin|Hout].
    + apply Hne, (gated_eq_1 p). rewrite <- H1. apply Hm; assumption.
    + unfold window_sum in Hs. rewrite Zsum_zero, Z.mod_0_l in Hs; try lia.
      intros t Ht. apply in_seq in Ht. apply H0. lia.
  - intros t' Ht' Hone Hmatch.
    apply (LiteralAtIndex_one_hot_sat p p_prime _ _ _ _ _ t'); assumption.
Qed.

(** C2 (one-hot enforcement).  For a buffer size below the prime (a template
    parameter is itself a field value), every assignment that satisfies the
    constraints of [LiteralAtIndex] has bits in the valid window, which add
    up to exactly one, and zeros outside the window; hence a selector of
    zeros, or one with two ones, violates the constraints whatever the
    buffer and the literal hold. *)
Theorem one_hot_enforcement
  (p : Z) (p_prime : Z.prime p) (MAX_EML_LEN LIT_LEN : nat)
  (Hsize : (Z.of_nat MAX_EML_LEN < p)%Z) (eml lit sel : list (Zmod p)) :
  let POSITIONS := (MAX_EML_LEN + 1 - LIT_LEN)%nat in
  let cs := snd (LiteralAtIndex p MAX_EML_LEN LIT_LEN eml lit sel) in
  (satisfied cs = true ->
   (forall t, (t < POSITIONS)%nat -> get sel t = 0 \/ get sel t = 1) /\
   window_sum sel POSITIONS = 1%Z /\
   (forall u, (POSITIONS <= u < MAX_EML_LEN)%nat -> get sel u = 0))
  /\ ((forall u, get sel u = 0) -> satisfied cs = false)
  /\ (forall t1 t2, (t1 < MAX_EML_LEN)%nat -> (t2 < MAX_EML_LEN)%nat -> t1 <> t2 ->
        get sel t1 = 1 -> get sel t2 = 1 -> satisfied cs = false).
Proof.
  intros POSITIONS cs. subst cs. split; [|split].
  - apply (LiteralAtIndex_window p p_prime); exact Hsize.
  - intros Hzero. apply not_satisfied_iff. intros Hsat.
    destruct (LiteralAtIndex_window p p_prime _ _ _ _ _ Hsize Hsat) as (_ & Hs & _).
    unfold window_sum in Hs. rewrite Zsum_zero in Hs; [discriminate|].
    intros t _. apply Hzero.
  - intros t1 t2 Ht1 Ht2 Hne H1 H2. apply not_satisfied_iff. intros Hsat.
    apply Hne.
    apply (LiteralAtIndex_unique p p_prime _ _ _ _ _ Hsize Hsat); assumption.
Qed.

End LiteralTheorems.

(** ** Positional sums: the bits of [Num2Bits] and the bytes of a chunk *)

Module PackFacts.
Import R1CS R1CSFacts Circuit Notions.

Lemma polyZ_ext B f g s n :
  (forall j, (s <= j < s + n)%nat -> f j = g j) -> polyZ B f s n = polyZ B g s n.
Proof.
  revert s. induction n as [|n IH]; intros s H; simpl; [reflexivity|].
  rewrite H by lia. rewrite (IH (S s)); [reflexivity|]. intros; apply H; lia.
Qed.

Lemma polyZ_bounds B f s n :
  0 < B -> (forall j, (s <= j < s + n)%nat -> 0 <= f j < B) ->
  0 <= polyZ B f s n < B ^ Z.of_nat n.
Proof.
  intros HB. revert s. induction n as [|n IH]; intros s H.
  - simpl. lia.
  - rewrite Nat2Z.inj_succ, Z.pow_succ_r by lia.
    change (polyZ B f s (S n)) with (f s + B * polyZ B f (S s) n).
    assert (Hs : 0 <= f s < B) by (apply H; lia).
    assert (Hr : 0 <= polyZ B f (S s) n < B ^ Z.of_nat n)
      by (apply IH; intros; apply H; lia).
    nia.
Qed.

(** The loop [for i: acc += f(i) * mul; mul = mul * B] over the integers. *)
Lemma fold_polyZ (B : Z) (f : nat -> Z) (step : Z * Z -> nat -> Z * Z) :
  (forall acc mul i, step (acc, mul) i = (acc + f i * mul, mul * B)) ->
  forall n s acc mul,
    fst (fold_left step (seq s n) (acc, mul)) = acc + mul * polyZ B f s n.
Proof.
  intros Hstep. induction n as [|n IH]; intros s acc mul; simpl.
  - lia.
  - rewrite Hstep, IH. lia.
Qed.

(** The binary digits of [z], from bit [s] on, add up to [z >> s] cut to
    [n] bits. *)
Lemma polyZ_bits z s n :
  0 <= z ->
  polyZ 2 (fun i => Z.land (Z.shiftr z (Z.of_nat i)) 1) s n
  = Z.shiftr z (Z.of_nat s) mod 2 ^ Z.of_nat n.
Proof.
  intros Hz. revert s. induction n as [|n IH]; intros s.
  - simpl. rewrite Z.mod_1_r. reflexivity.
  - change (polyZ 2 (fun i => Z.land (Z.shiftr z (Z.of_nat i)) 1) s (S n))
      with (Z.land (Z.shiftr z (Z.of_nat s)) 1
            + 2 * polyZ 2 (fun i => Z.land (Z.shiftr z (Z.of_nat i)) 1) (S s) n).
    rewrite IH, (Nat2Z.inj_succ n), Z.pow_succ_r by lia.
    rewrite Z.rem_mul_r by lia.
    change 1 with (Z.ones 1) at 1. rewrite Z.land_ones by lia.
    rewrite Nat2Z.inj_succ, <- Z.add_1_r, <- Z.shiftr_shiftr by lia.
    rewrite (Z.shiftr_div_pow2 _ 1) by lia. reflexivity.
Qed.

Section Facts.
  Variable p : Z.
  Hypothesis p_prime : Z.prime p.
  Abbreviation F := (Zmod p).
  Local Open Scope Zmod_scope.

  Add Ring Fring : (Zmod.ring_theory p).

Lemma fold_polyF (B : F) (g : nat -> F) (step : F * F -> nat -> F * F) :
    (forall acc mul i, step (acc, mul) i = (acc + g i * mul, mul * B)) ->
    forall n s acc mul,
      fst (fold_left step (seq s n) (acc, mul)) = acc + mul * polyF B g s n :> F.
  Proof.
    intros Hstep. induction n as [|n IH]; intros s acc mul; simpl.
    - ring.
    - rewrite Hstep, IH. ring.
  Qed.

Lemma polyF_of_Z (B : Z) (f : nat -> Z) s n :
    polyF (Zmod.of_Z p B) (fun j => Zmod.of_Z p (f j)) s n
    = Zmod.of_Z p (polyZ B f s n).
  Proof.
    revert s. induction n as [|n IH]; intros s; simpl.
    - symmetry. apply Zmod.of_Z_0.
    - rewrite IH, Zmod.of_Z_add, Zmod.of_Z_mul. reflexivity.
  Qed.

Lemma polyF_ext B g g' s n :
    (forall j, (s <= j < s + n)%nat -> g j = g' j) ->
    polyF B g s n = polyF B g' s n :> F.
  Proof.
    revert s. induction n as [|n IH]; intros s H; simpl; [reflexivity|].
    rewrite H by lia. rewrite (IH (S s)); [reflexivity|]. intros; apply H; lia.
  Qed.

Lemma polyF_to_Z (B : Z) (g : nat -> F) s n :
    polyF (Zmod.of_Z p B) g s n = Zmod.of_Z p (polyZ B (fun j => Zmod.to_Z (g j)) s n).
  Proof.
    rewrite <- polyF_of_Z. apply polyF_ext. intros j _.
    symmetry. apply Zmod.of_Z_unsigned.
  Qed.

Lemma two_F : (1 + 1 : F) = Zmod.of_Z p 2.
  Proof. rewrite <- Zmod.of_Z_1, <- Zmod.of_Z_add. reflexivity. Qed.

  (** What the constraints of [Num2Bits] say. *)
Lemma Num2Bits_sat (n : nat) (in_ : F) (out : list F) :
    satisfied (Num2Bits p n in_ out) = true <->
    (forall i, (i < n)%nat -> get out i = 0 \/ get out i = 1) /\
    Zmod.of_Z p (polyZ 2 (fun i => Zmod.to_Z (get out i)) 0 n) = in_.
  Proof.
    unfold Num2Bits. rewrite satisfied_app, satisfied_cons, satisfied_map, holds_iff.
    rewrite (fold_polyF (Zmod.of_Z p 2) (get out)).
    2:{ intros acc mul i. rewrite <- two_F. f_equal. ring. }
    rewrite polyF_to_Z.
    replace (0 + 1 * Zmod.of_Z p (polyZ 2 (fun j => Zmod.to_Z (get out j)) 0 n))
      with (Zmod.of_Z p (polyZ 2 (fun j => Zmod.to_Z (get out j)) 0 n)) by ring.
    split.
    - intros (Hb & Hs & _). split; [|exact Hs].
      intros i Hi. apply (bit_constraint p p_prime), holds_iff, Hb, in_seq. lia.
    - intros (Hb & Hs). repeat split; [|exact Hs].
      intros i Hi. apply in_seq in Hi.
      apply holds_iff, (bit_constraint p p_prime), Hb. lia.
  Qed.

  (** [n] constrained bits hold a value below [2^n]. *)
Lemma Num2Bits_range (n : nat) (in_ : F) (out : list F) :
    satisfied (Num2Bits p n in_ out) = true -> (Zmod.to_Z in_ < 2 ^ Z.of_nat n)%Z.
  Proof.
    intros H. apply Num2Bits_sat in H. destruct H as (Hb & <-).
    pose proof (p_ge_2 p p_prime) as Hp.
    assert (Hr : (0 <= polyZ 2 (fun i => Zmod.to_Z (get out i)) 0 n < 2 ^ Z.of_nat n)%Z).
    { apply polyZ_bounds; [lia|]. intros j Hj.
      destruct (Hb j) as [-> | ->]; [lia| |].
      - rewrite Zmod.unsigned_0. lia.
      - rewrite (to_Z_one p p_prime). lia. }
    rewrite Zmod.unsigned_of_Z.
    pose proof (Z.mod_le (polyZ 2 (fun i => Zmod.to_Z (get out i)) 0 n) p).
    lia.
  Qed.

Lemma get_map_seq (f : nat -> F) (n i : nat) :
    (i < n)%nat -> get (map f (seq 0 n)) i = f i.
  Proof.
    intros Hi. unfold get.
    rewrite (nth_indep _ _ (f O)) by (rewrite length_map, length_seq; exact Hi).
    rewrite map_nth, seq_nth by exact Hi. reflexivity.
  Qed.

  (** The bits computed by the witness generator satisfy [Num2Bits] for a
      value below [2^n]. *)
Lemma Num2Bits_witness_sat (n : nat) (in_ : F) :
    (Zmod.to_Z in_ < 2 ^ Z.of_nat n)%Z ->
    satisfied (Num2Bits p n in_ (Num2Bits_witness p n in_)) = true.
  Proof.
    intros Hlt. pose proof (p_ge_2 p p_prime) as Hp.
    pose proof (range p p_prime in_) as Hin.
    assert (Hbit : forall i, Z.land (Z.shiftr (Zmod.to_Z in_) (Z.of_nat i)) 1 = 0%Z
                          \/ Z.land (Z.shiftr (Zmod.to_Z in_) (Z.of_nat i)) 1 = 1%Z).
    { intros i.
      rewrite (Z.land_ones (Z.shiftr (Zmod.to_Z in_) (Z.of_nat i)) 1 ltac:(lia)
               : Z.land _ 1 = _).
      pose proof (Z.mod_pos_bound (Z.shiftr (Zmod.to_Z in_) (Z.of_nat i)) (2 ^ 1)).
      lia. }
    apply Num2Bits_sat. split.
    - intros i Hi. unfold Num2Bits_witness. rewrite get_map_seq by exact Hi.
      destruct (Hbit i) as [-> | ->]; [left; apply Zmod.of_Z_0|right; apply Zmod.of_Z_1].
    - rewrite (polyZ_ext 2 _ (fun i => Z.land (Z.shiftr (Zmod.to_Z in_) (Z.of_nat i)) 1)).
      + rewrite polyZ_bits by lia. simpl (Z.of_nat 0). rewrite Z.shiftr_0_r.
        rewrite Z.mod_small by lia. apply Zmod.of_Z_unsigned.
      + intros i Hi. unfold Num2Bits_witness. rewrite get_map_seq by lia.
        rewrite Zmod.unsigned_of_Z. apply Z.mod_small.
        destruct (Hbit i) as [-> | ->]; lia.
  Qed.
End Facts.

End PackFacts.

(** ** The byte checks, the packing and the main component *)

Module CircuitFacts.
Import R1CS R1CSFacts Circuit Notions PackFacts.

Section Facts.
  Variable p : Z.
  Hypothesis p_prime : Z.prime p.
  Abbreviation F := (Zmod p).
  Variable Poseidon : F -> F -> F.
  Local Open Scope Zmod_scope.

  Add Ring Fring' : (Zmod.ring_theory p).

  (** The output of a packer is the little-endian value of its bytes. *)
Lemma Pack31_out (bytes : list F) (n2b_out : nat -> list F) :
    fst (Pack31BytesLittleEndian p bytes n2b_out)
    = Zmod.of_Z p (polyZ 256 (fun j => Zmod.to_Z (get bytes j)) 0 31).
  Proof.
    unfold Pack31BytesLittleEndian. cbn [fst].
    rewrite (fold_polyF p (Zmod.of_Z p 256) (get bytes)) by reflexivity.
    rewrite polyF_to_Z. ring.
  Qed.

Lemma Pack31_sat (bytes : list F) (n2b_out : nat -> list F) :
    satisfied (snd (Pack31BytesLittleEndian p bytes n2b_out)) = true <->
    forall i, (i < 31)%nat ->
              satisfied (snd (ByteIsUint8 p (get bytes i) (n2b_out i))) = true.
  Proof.
    unfold Pack31BytesLittleEndian. cbn [snd]. rewrite satisfied_flat_map.
    split; intros H i Hi.
    - apply H, in_seq. lia.
    - apply in_seq in Hi. apply H. lia.
  Qed.

Lemma packer_bytes_get (maxLen : nat) (eml : list F) (c k : nat) :
    (k < 31)%nat ->
    get (packer_bytes p maxLen eml c) k
    = if (c * 31 + k <? maxLen)%nat then get eml (c * 31 + k) else 0.
  Proof. intros Hk. unfold packer_bytes. rewrite get_map_seq by exact Hk. reflexivity. Qed.

Lemma RollingPoseidon_sat (maxLen numChunks : nat) (eml : list F)
        (n2b_out : nat -> nat -> list F) :
    satisfied (snd (RollingPoseidon p Poseidon maxLen numChunks eml n2b_out)) = true <->
    forall c k, (c < numChunks)%nat -> (k < 31)%nat ->
      satisfied (snd (ByteIsUint8 p (get (packer_bytes p maxLen eml c) k) (n2b_out c k)))
      = true.
  Proof.
    unfold RollingPoseidon. cbn [snd]. rewrite satisfied_flat_map.
    split.
    - intros H c k Hc Hk.
      assert (Hin : In c (seq 0 numChunks)) by (apply in_seq; lia).
      specialize (H c Hin). unfold packers in H. rewrite Pack31_sat in H. auto.
    - intros H c Hc. apply in_seq in Hc. unfold packers. rewrite Pack31_sat.
      intros k Hk. apply H; lia.
  Qed.

  (** Every buffer entry that reaches a packer is range-checked. *)
Lemma RollingPoseidon_bytes (maxLen numChunks : nat) (eml : list F)
        (n2b_out : nat -> nat -> list F) :
    satisfied (snd (RollingPoseidon p Poseidon maxLen numChunks eml n2b_out)) = true ->
    forall i, (i < maxLen)%nat -> (i < numChunks * 31)%nat ->
              (0 <= Zmod.to_Z (get eml i) <= 255)%Z.
  Proof.
    intros Hsat i Hi Hc. rewrite RollingPoseidon_sat in Hsat.
    pose proof (Nat.div_mod_eq i 31) as Hdm.
    pose proof (Nat.mod_upper_bound i 31 ltac:(lia)) as Hk.
    assert (Hq : (i / 31 < numChunks)%nat) by (apply Nat.Div0.div_lt_upper_bound; lia).
    specialize (Hsat (i / 31)%nat (i mod 31)%nat Hq Hk).
    rewrite packer_bytes_get in Hsat by exact Hk.
    replace (i / 31 * 31 + i mod 31)%nat with i in Hsat by lia.
    apply Nat.ltb_lt in Hi. rewrite Hi in Hsat.
    apply (Num2Bits_range p p_prime) in Hsat.
    pose proof (range p p_prime (get eml i)). change (2 ^ Z.of_nat 8)%Z with 256%Z in Hsat.
    lia.
  Qed.

  (** The main component is the conjunction of its four parts. *)
Lemma EmlHasHeadersSimple_sat (MAX_EML_LEN : nat) (s : Signals p) :
    satisfied (EmlHasHeadersSimple p Poseidon MAX_EML_LEN s) = true <->
    satisfied (snd (RollingPoseidon p Poseidon MAX_EML_LEN 265 (eml p s) (n2b_out p s))) = true
    /\ fst (RollingPoseidon p Poseidon MAX_EML_LEN 265 (eml p s) (n2b_out p s))
       = eml_commitment p s
    /\ satisfied (snd (LiteralAtIndex p MAX_EML_LEN 5 (eml p s) (from_bytes p s) (sel_from p s))) = true
    /\ satisfied (snd (LiteralAtIndex p MAX_EML_LEN 3 (eml p s) (to_bytes p s) (sel_to p s))) = true
    /\ satisfied (snd (LiteralAtIndex p MAX_EML_LEN 10 (eml p s) (atg_bytes p s) (sel_atg p s))) = true.
  Proof.
    unfold EmlHasHeadersSimple.
    rewrite !satisfied_app, !satisfied_cons, !holds_iff.
    change (fst (LiteralAtIndex p MAX_EML_LEN 5 (eml p s) (from_bytes p s) (sel_from p s)))
      with (1 : F).
    change (fst (LiteralAtIndex p MAX_EML_LEN 3 (eml p s) (to_bytes p s) (sel_to p s)))
      with (1 : F).
    change (fst (LiteralAtIndex p MAX_EML_LEN 10 (eml p s) (atg_bytes p s) (sel_atg p s)))
      with (1 : F).
    change (satisfied (@nil (constraint p))) with true.
    intuition auto.
  Qed.
End Facts.

End CircuitFacts.

(** ** C6 and C10: the byte range checks *)

Module RangeTheorems.
Import R1CS R1CSFacts Circuit Notions LiteralFacts PackFacts CircuitFacts.
Local Open Scope Zmod_scope.

(** C6 (byte range check).  The constraints of [ByteIsUint8] on a field
    value [b] can be satisfied, by some assignment of the eight bits, if and
    only if [b] lies in [0, 255]; and an assignment of the main component
    with a buffer entry outside [0, 255] violates its constraints. *)
Theorem byte_range_check
  (p : Z) (p_prime : Z.prime p) (Poseidon : Zmod p -> Zmod p -> Zmod p) :
  (forall b : Zmod p,
      (exists n2b_out, satisfied (snd (ByteIsUint8 p b n2b_out)) = true)
      <-> (0 <= Zmod.to_Z b <= 255)%Z)
  /\ (forall (s : Signals p) (i : nat),
        (i < 8192)%nat -> ~ (0 <= Zmod.to_Z (get (eml p s) i) <= 255)%Z ->
        satisfied (main p Poseidon s) = false).
Proof.
  split.
  - intros b. unfold ByteIsUint8. cbn [snd]. split.
    + intros (out & Hsat). apply (Num2Bits_range p p_prime) in Hsat.
      pose proof (range p p_prime b). change (2 ^ Z.of_nat 8)%Z with 256%Z in Hsat. lia.
    + intros Hb. exists (Num2Bits_witness p 8 b).
      apply (Num2Bits_witness_sat p p_prime). change (2 ^ Z.of_nat 8)%Z with 256%Z. lia.
  - intros s i Hi Hout. apply not_satisfied_iff. intros Hsat. apply Hout.
    unfold main in Hsat. apply EmlHasHeadersSimple_sat in Hsat.
    destruct Hsat as (Hrh & _).
    apply (RollingPoseidon_bytes p p_prime Poseidon _ _ _ _ Hrh); size_lia.
Qed.

(** C10 (the literals are bytes).  In an assignment that satisfies the main
    component, over a prime above its 8192 positions, each of the three
    literals equals the buffer at the one position its selector marks, and
    each literal signal therefore lies in [0, 255]. *)
Theorem literal_range_invariant
  (p : Z) (p_prime : Z.prime p) (Poseidon : Zmod p -> Zmod p -> Zmod p)
  (Hsize : (8192 < p)%Z) (s : Signals p) :
  satisfied (main p Poseidon s) = true ->
  literal_in_buffer 5 (eml p s) (from_bytes p s) (sel_from p s)
  /\ literal_in_buffer 3 (eml p s) (to_bytes p s) (sel_to p s)
  /\ literal_in_buffer 10 (eml p s) (atg_bytes p s) (sel_atg p s).
Proof.
  intros Hsat. unfold main in Hsat. apply EmlHasHeadersSimple_sat in Hsat.
  destruct Hsat as (Hrh & _ & Hfrom & Hto & Hatg).
  assert (Hsize' : (Z.of_nat 8192 < p)%Z) by size_lia.
  assert (Hlit : forall LIT_LEN lit sel, (1 <= LIT_LEN)%nat ->
            satisfied (snd (LiteralAtIndex p 8192 LIT_LEN (eml p s) lit sel)) = true ->
            literal_in_buffer LIT_LEN (eml p s) lit sel).
  { intros LIT_LEN lit sel Hpos Hl.
    destruct (LiteralAtIndex_selected p p_prime _ _ _ _ _ Hl) as (t & Ht & H1 & Hm).
    exists t. split; [exact Ht|]. split; [exact H1|]. split.
    - intros t' Ht' H1'.
      apply (LiteralAtIndex_unique p p_prime _ _ _ _ _ Hsize' Hl); auto; size_lia.
    - intros i Hi. rewrite <- (Hm i Hi). split; [reflexivity|].
      apply (RollingPoseidon_bytes p p_prime Poseidon _ _ _ _ Hrh); size_lia. }
  repeat split; apply Hlit; auto; lia.
Qed.

End RangeTheorems.

(** ** The commitment chain *)

Module CommitmentFacts.
Import R1CS R1CSFacts Circuit Notions PackFacts CircuitFacts.

Lemma polyZ_sum B f n s :
  polyZ B f s n
  = fold_right Z.add 0 (map (fun i => f (s + i)%nat * B ^ Z.of_nat i) (seq 0 n)).
Proof.
  revert s. induction n as [|n IH]; intros s; [reflexivity|].
  change (polyZ B f s (S n)) with (f s + B * polyZ B f (S s) n).
  rewrite IH. cbn [seq map fold_right]. rewrite <- seq_shift, map_map.
  rewrite Nat.add_0_r, Z.pow_0_r, Z.mul_1_r. f_equal.
  clear IH. induction (seq 0 n) as [|a l IHl]; cbn [map fold_right]; [lia|].
  rewrite <- IHl.
  replace (S s + a)%nat with (s + S a)%nat by lia.
  rewrite Nat2Z.inj_succ, Z.pow_succ_r by lia. ring.
Qed.

(** Entry [j] of chunk [k], padding included, is entry [31 k + j] of the
    buffer, or zero past its end. *)
Lemma nth_chunk (buffer : list Z) (k j : nat) :
  (j < 31)%nat -> nth j (Spec.chunk buffer k) 0 = nth (31 * k + j) buffer 0.
Proof.
  intros Hj. unfold Spec.chunk.
  destruct (Nat.lt_ge_cases j (List.length (firstn 31 (skipn (31 * k) buffer)))) as [Hin|Hout].
  - rewrite app_nth1 by exact Hin. rewrite nth_firstn.
    apply Nat.ltb_lt in Hj. rewrite Hj. apply nth_skipn.
  - rewrite app_nth2 by exact Hout. rewrite nth_repeat.
    rewrite length_firstn, length_skipn in Hout.
    symmetry. apply nth_overflow. lia.
Qed.

Lemma nth_slice (arr : list Z) (off j : nat) :
  (j < 31)%nat -> Builder.at_or_0 (Builder.slice arr off (off + 31)) j = nth (off + j) arr 0.
Proof.
  intros Hj. unfold Builder.at_or_0, Builder.slice.
  replace (off + 31 - off)%nat with 31%nat by lia.
  rewrite nth_firstn. apply Nat.ltb_lt in Hj. rewrite Hj. apply nth_skipn.
Qed.

Lemma pack31LE_poly (bytes : list Z) :
  Builder.pack31LE bytes = polyZ 256 (Builder.at_or_0 bytes) 0 31.
Proof.
  unfold Builder.pack31LE.
  rewrite (fold_polyZ 256 (Builder.at_or_0 bytes)) by reflexivity. lia.
Qed.

Lemma packed_poly (b : list Z) : Spec.packed b = polyZ 256 (fun i => nth i b 0) 0 31.
Proof. unfold Spec.packed. rewrite polyZ_sum. reflexivity. Qed.

Section Facts.
  Variable p : Z.
  Abbreviation F := (Zmod p).
  Variable Poseidon : F -> F -> F.
  Local Open Scope Zmod_scope.

Lemma map_of_Z_to_Z (l : list F) : map (Zmod.of_Z p) (map Zmod.to_Z l) = l.
  Proof.
    induction l as [|a l IH]; [reflexivity|].
    cbn [map]. rewrite IH, Zmod.of_Z_unsigned. reflexivity.
  Qed.

Lemma get_map_of_Z (l : list Z) (i : nat) :
    get (map (Zmod.of_Z p) l) i = Zmod.of_Z p (nth i l 0%Z).
  Proof. unfold get. change (0 : F) with (Zmod.of_Z p 0%Z). apply map_nth. Qed.

  (** The output of packer [c] over a buffer of [maxLen] integers. *)
Lemma packers_out (maxLen : nat) (buffer : list Z) n2b_out (c : nat) :
    List.length buffer = maxLen ->
    fst (packers p maxLen (map (Zmod.of_Z p) buffer) n2b_out c)
    = Zmod.of_Z p (polyZ 256 (fun j => nth (31 * c + j) buffer 0%Z) 0 31).
  Proof.
    intros Hlen. unfold packers. rewrite Pack31_out.
    rewrite <- !polyF_of_Z. apply polyF_ext. intros j Hj.
    rewrite Zmod.of_Z_unsigned, packer_bytes_get by lia. rewrite get_map_of_Z.
    replace (c * 31 + j)%nat with (31 * c + j)%nat by lia.
    destruct (Nat.ltb_spec (31 * c + j) maxLen) as [Hin|Hout]; [reflexivity|].
    rewrite nth_overflow by lia. symmetry. apply Zmod.of_Z_0.
  Qed.

Lemma H_out_eq packers_out i2 :
    H_out p Poseidon packers_out i2
    = Poseidon (H_prev Poseidon packers_out i2) (packers_out i2).
  Proof. destruct i2; reflexivity. Qed.

Lemma RollingPoseidon_commitment maxLen numChunks eml n2b_out :
    (1 <= numChunks)%nat ->
    fst (RollingPoseidon p Poseidon maxLen numChunks eml n2b_out)
    = H_prev Poseidon (fun c => fst (packers p maxLen eml n2b_out c)) numChunks.
  Proof.
    intros Hn. unfold RollingPoseidon. cbn [fst].
    destruct numChunks as [|n]; [lia|]. simpl. rewrite Nat.sub_0_r. reflexivity.
  Qed.

  (** The chain of the specification is the chain of the circuit. *)
Lemma spec_h_eq (buffer : list Z) (packers_out : nat -> F) (n : nat) :
    (forall c, (c < n)%nat ->
               packers_out c = Zmod.of_Z p (Spec.packed (Spec.chunk buffer c))) ->
    Spec.h p Poseidon buffer n = H_prev Poseidon packers_out n.
  Proof.
    induction n as [|n IH]; intros Hc; [reflexivity|].
    cbn [Spec.h H_prev]. rewrite H_out_eq, IH, Hc by (auto; intros; apply Hc; lia).
    reflexivity.
  Qed.

Lemma packers_out_spec (maxLen : nat) (buffer : list Z) n2b_out (c : nat) :
    List.length buffer = maxLen ->
    fst (packers p maxLen (map (Zmod.of_Z p) buffer) n2b_out c)
    = Zmod.of_Z p (Spec.packed (Spec.chunk buffer c)).
  Proof.
    intros Hlen. rewrite packers_out by exact Hlen. f_equal.
    rewrite packed_poly. apply polyZ_ext. intros j Hj.
    symmetry. apply nth_chunk. lia.
  Qed.

  (** With enough fuel the loop ends, after the [n] iterations that take
      [off] to [MAX] or beyond. *)
Lemma commitment_loop_chain (poseidon : F -> F -> F) (eml : list Z) :
    forall n fuel off h, (n <= fuel)%nat ->
      (Builder.MAX <= off + 31 * n)%nat ->
      (off + 31 * n < Builder.MAX + 31)%nat ->
      Builder.commitment_loop p poseidon fuel eml off h
      = Some (js_chain poseidon eml off n h).
  Proof.
    induction n as [|n IH]; intros fuel off h Hfuel Hge Hlt.
    - assert (Hoff : (off <? Builder.MAX)%nat = false) by (apply Nat.ltb_ge; lia).
      destruct fuel; cbn [Builder.commitment_loop js_chain]; rewrite Hoff; reflexivity.
    - assert (Hoff : (off <? Builder.MAX)%nat = true) by (apply Nat.ltb_lt; lia).
      destruct fuel as [|fuel]; [lia|].
      cbn [Builder.commitment_loop js_chain]. rewrite Hoff. apply IH; lia.
  Qed.

Lemma js_chain_eq (poseidon : F -> F -> F) (eml : list Z) (packers_out : nat -> F) :
    (forall a b, poseidon a b = Poseidon a b) ->
    (forall c, packers_out c
               = Zmod.of_Z p (Builder.pack31LE (Builder.slice eml (31 * c) (31 * c + 31)))) ->
    forall n k off h, off = (31 * k)%nat -> Zmod.of_Z p h = H_prev Poseidon packers_out k ->
      Zmod.of_Z p (js_chain poseidon eml off n h) = H_prev Poseidon packers_out (k + n).
  Proof.
    intros Hlib Hpack. induction n as [|n IH]; intros k off h Hoff Hh.
    - rewrite Nat.add_0_r. exact Hh.
    - cbn [js_chain]. replace (k + S n)%nat with (S k + n)%nat by lia.
      apply IH; [lia|]. subst off.
      rewrite Zmod.of_Z_unsigned, Hlib, Hh, <- Hpack.
      symmetry. apply H_out_eq.
  Qed.

Lemma packers_out_js (maxLen : nat) (buffer : list Z) n2b_out (c : nat) :
    List.length buffer = maxLen ->
    fst (packers p maxLen (map (Zmod.of_Z p) buffer) n2b_out c)
    = Zmod.of_Z p (Builder.pack31LE (Builder.slice buffer (31 * c) (31 * c + 31))).
  Proof.
    intros Hlen. rewrite packers_out by exact Hlen. f_equal.
    rewrite pack31LE_poly. apply polyZ_ext. intros j Hj.
    symmetry. apply nth_slice. lia.
  Qed.
  (** The builder's loop ends, with the commitment signal of the circuit. *)
Lemma commitment_loop_circuit (poseidon : F -> F -> F) (eml : list Z) n2b_out :
    (forall a b, poseidon a b = Poseidon a b) -> List.length eml = 8192%nat ->
    exists h, Builder.commitment_loop p poseidon Builder.MAX eml 0 0 = Some h /\
      Zmod.of_Z p h
      = fst (RollingPoseidon p Poseidon 8192 265 (map (Zmod.of_Z p) eml) n2b_out).
  Proof.
    intros Hlib Hlen. exists (js_chain poseidon eml 0 265 0). split.
    - apply commitment_loop_chain; unfold Builder.MAX; size_lia.
    - rewrite RollingPoseidon_commitment by lia.
      apply (js_chain_eq poseidon eml _ Hlib) with (k := 0%nat).
      + intros c. apply packers_out_js, Hlen.
      + reflexivity.
      + apply Zmod.of_Z_0.
  Qed.
End Facts.

Lemma length_padded_8192 (raw : list Byte.byte) : List.length (Builder.padded raw) = 8192%nat.
Proof.
  unfold Builder.padded. rewrite length_app, repeat_length, length_map, length_firstn.
  unfold Builder.MAX. lia.
Qed.

End CommitmentFacts.

(** ** C3 and C4: the rolling commitment *)

Module CommitmentTheorems.
Import R1CS R1CSFacts Circuit Notions PackFacts CircuitFacts CommitmentFacts.
Local Open Scope Zmod_scope.

(** C3 (rolling commitment definition).  A buffer of 8192 entries has
    [ceil(8192/31) = 265] chunks, the last one made of its final 8 entries
    and 23 zeros; the commitment signal of [RollingPoseidon(8192, 265)] is
    the fold [h_265] of the specification over these chunks, packed
    little-endian, from [h_0 = 0]; and a satisfying assignment of the main
    component carries that value in [eml_commitment]. *)
Theorem rolling_commitment_definition
  (p : Z) (Poseidon : Zmod p -> Zmod p -> Zmod p) :
  Spec.numChunks 8192 = 265%nat
  /\ (forall buffer : list Z, List.length buffer = 8192%nat ->
        Spec.chunk buffer 264 = firstn 8 (skipn 8184 buffer) ++ repeat 0%Z 23)
  /\ (forall (buffer : list Z) n2b_out, List.length buffer = 8192%nat ->
        fst (RollingPoseidon p Poseidon 8192 265 (map (Zmod.of_Z p) buffer) n2b_out)
        = Spec.commitment p Poseidon 8192 buffer)
  /\ (forall s : Signals p, List.length (eml p s) = 8192%nat ->
        satisfied (main p Poseidon s) = true ->
        eml_commitment p s
        = Spec.commitment p Poseidon 8192 (map Zmod.to_Z (eml p s))).
Proof.
  assert (Hn : Spec.numChunks 8192 = 265%nat) by (vm_compute; reflexivity).
  assert (Hcommit : forall (buffer : list Z) n2b_out, List.length buffer = 8192%nat ->
            fst (RollingPoseidon p Poseidon 8192 265 (map (Zmod.of_Z p) buffer) n2b_out)
            = Spec.commitment p Poseidon 8192 buffer).
  { intros buffer n2b_out Hlen. unfold Spec.commitment. rewrite Hn.
    rewrite RollingPoseidon_commitment by lia. symmetry.
    apply spec_h_eq. intros c _. apply packers_out_spec, Hlen. }
  split; [exact Hn|]. split; [|split].
  - intros buffer Hlen. unfold Spec.chunk.
    assert (Hl : List.length (firstn 31 (skipn (31 * 264) buffer)) = 8%nat).
    { rewrite length_firstn, length_skipn, Hlen. size_lia. }
    rewrite Hl. change (31 * 264)%nat with 8184%nat. f_equal.
    rewrite <- (firstn_all (skipn 8184 buffer)) at 1.
    rewrite length_skipn, Hlen.
    replace (8192 - 8184)%nat with 8%nat by (vm_compute; reflexivity).
    rewrite firstn_firstn. reflexivity.
  - exact Hcommit.
  - intros s Hlen Hsat. unfold main in Hsat.
    apply EmlHasHeadersSimple_sat in Hsat. destruct Hsat as (_ & <- & _).
    rewrite <- (Hcommit _ (n2b_out p s)) by (rewrite length_map; exact Hlen).
    rewrite map_of_Z_to_Z. reflexivity.
Qed.

(** C4 (builder and circuit agree on the commitment).  When circomlibjs's
    [poseidon] computes the function of the circuit's [Poseidon(2)], the
    loop of the builder over a buffer of 8192 integers ends, and with the
    value of the commitment signal of [RollingPoseidon(8192, 265)] on that
    buffer; the [eml_commitment] the builder writes therefore satisfies
    the constraint [RH.commitment === eml_commitment]. *)
Theorem builder_circuit_commitment_agreement
  (p : Z) (Poseidon poseidon : Zmod p -> Zmod p -> Zmod p)
  (Hlib : forall a b, poseidon a b = Poseidon a b) :
  (forall (eml : list Z) n2b_out, List.length eml = 8192%nat ->
     exists h, Builder.commitment_loop p poseidon Builder.MAX eml 0 0 = Some h /\
       Zmod.of_Z p h
       = fst (RollingPoseidon p Poseidon 8192 265 (map (Zmod.of_Z p) eml) n2b_out))
  /\ (forall raw input, Builder.run p poseidon raw = Some (Builder.Written input) ->
        let s := Witness.to_signals p input in
        holds (Ceq (fst (RollingPoseidon p Poseidon 8192 265 (eml p s) (n2b_out p s)))
                   (eml_commitment p s)) = true).
Proof.
  assert (Hloop : forall (eml : list Z) n2b_out, List.length eml = 8192%nat ->
     exists h, Builder.commitment_loop p poseidon Builder.MAX eml 0 0 = Some h /\
       Zmod.of_Z p h
       = fst (RollingPoseidon p Poseidon 8192 265 (map (Zmod.of_Z p) eml) n2b_out)).
  { intros eml n2b_out Hlen. apply commitment_loop_circuit; assumption. }
  split; [exact Hloop|].
  intros raw input Hrun s. apply holds_iff.
  unfold Builder.run, Builder.build in Hrun.
  destruct (_ || _ || _); [discriminate|].
  destruct (Hloop (Builder.padded raw) (n2b_out p s) (length_padded_8192 raw)) as (h & Hh & Heq).
  rewrite Hh in Hrun. injection Hrun as <-. symmetry. exact Heq.
Qed.

End CommitmentTheorems.

(** ** The witness builder *)

Module BuilderFacts.
Import Builder Notions.

Lemma starts_with_iff (buf needle : list Z) :
  starts_with buf needle = true <-> firstn (List.length needle) buf = needle.
Proof.
  revert buf. induction needle as [|n needle IH]; intros buf.
  - destruct buf; simpl; split; reflexivity.
  - destruct buf as [|b buf]; simpl.
    + split; discriminate.
    + rewrite andb_true_iff, IH, Z.eqb_eq. split.
      * intros [-> ->]. reflexivity.
      * intros H. injection H as -> H. auto.
Qed.

Lemma occurs_at_0 (buf needle : list Z) :
  occurs_at buf needle 0 <-> starts_with buf needle = true.
Proof. unfold occurs_at. rewrite starts_with_iff. reflexivity. Qed.

Lemma occurs_at_S (b : Z) (buf needle : list Z) (j : nat) :
  occurs_at (b :: buf) needle (S j) <-> occurs_at buf needle j.
Proof. reflexivity. Qed.

(** [indexOf_from] answers [-1] when the needle is nowhere, and otherwise
    the lowest index where it is found, counted from [i]. *)
Lemma indexOf_from_spec (needle buf : list Z) (i : Z) :
  (indexOf_from i buf needle = -1 /\ forall j, ~ occurs_at buf needle j)
  \/ (exists k, indexOf_from i buf needle = i + Z.of_nat k /\
                first_occurrence buf needle k).
Proof.
  revert i. induction buf as [|b buf IH]; intros i.
  - cbn [indexOf_from]. destruct (starts_with [] needle) eqn:E.
    + right. exists 0%nat. repeat split; [lia|apply occurs_at_0, E|lia].
    + left. split; [reflexivity|]. intros j Hj. unfold occurs_at in Hj.
      rewrite skipn_nil in Hj. rewrite <- starts_with_iff in Hj. congruence.
  - cbn [indexOf_from]. destruct (starts_with (b :: buf) needle) eqn:E.
    + right. exists 0%nat. repeat split; [lia|apply occurs_at_0, E|lia].
    + destruct (IH (i + 1)) as [[Hm Hno]|(k & Hk & Hocc & Hfirst)].
      * left. split; [exact Hm|]. intros [|j] Hj.
        -- apply occurs_at_0 in Hj. congruence.
        -- apply (Hno j), Hj.
      * right. exists (S k). repeat split.
        -- rewrite Hk. lia.
        -- exact Hocc.
        -- intros [|j] Hj Hoc.
           ++ apply occurs_at_0 in Hoc. congruence.
           ++ apply (Hfirst j); [lia|exact Hoc].
Qed.

Lemma indexOf_spec (buf needle : list Z) :
  (indexOf buf needle = -1 /\ ~ occurs buf needle)
  \/ (exists k, indexOf buf needle = Z.of_nat k /\ first_occurrence buf needle k).
Proof.
  unfold indexOf. destruct (indexOf_from_spec needle buf 0) as [[Hm Hno]|(k & Hk & Hf)].
  - left. split; [exact Hm|]. intros (j & Hj). apply (Hno j), Hj.
  - right. exists k. split; [rewrite Hk; lia|exact Hf].
Qed.

(** A non-empty needle found at [i] ends inside the buffer. *)
Lemma occurs_at_bound (buf needle : list Z) (i : nat) :
  occurs_at buf needle i -> needle <> [] -> (i + List.length needle <= List.length buf)%nat.
Proof.
  unfold occurs_at. intros H Hne. apply (f_equal (@List.length Z)) in H.
  rewrite length_firstn, length_skipn in H.
  assert (List.length needle <> 0%nat) by (destruct needle; [congruence|discriminate]).
  lia.
Qed.

Lemma occurs_at_nth (buf needle : list Z) (i j : nat) :
  occurs_at buf needle i -> (j < List.length needle)%nat ->
  nth (i + j) buf 0 = nth j needle 0.
Proof.
  unfold occurs_at. intros H Hj. rewrite <- H at 1.
  rewrite nth_firstn. apply Nat.ltb_lt in Hj. rewrite Hj. symmetry. apply nth_skipn.
Qed.

Lemma set_nth_length {A} (arr : list A) pos v :
  List.length (set_nth arr pos v) = List.length arr.
Proof.
  revert pos. induction arr as [|x arr IH]; intros [|pos]; simpl; auto.
Qed.

Lemma set_nth_same {A} (arr : list A) pos v d :
  (pos < List.length arr)%nat -> nth pos (set_nth arr pos v) d = v.
Proof.
  revert pos. induction arr as [|x arr IH]; intros [|pos] H; simpl in *; try lia; auto.
  apply IH. lia.
Qed.

Lemma set_nth_other {A} (arr : list A) pos j v d :
  j <> pos -> nth j (set_nth arr pos v) d = nth j arr d.
Proof.
  revert pos j. induction arr as [|x arr IH]; intros [|pos] [|j] H; simpl; auto; try lia.
Qed.

Lemma nth_repeat_0 (n j : nat) : nth j (repeat 0 n) 0 = 0.
Proof. apply nth_repeat. Qed.

Lemma oneHot_spec (i : nat) : (i < MAX)%nat -> one_hot_list (oneHot MAX (Z.of_nat i)) i.
Proof.
  intros Hi. unfold oneHot.
  assert (E : (0 <=? Z.of_nat i) && (Z.of_nat i <? Z.of_nat MAX) = true).
  { apply andb_true_iff. split; [apply Z.leb_le|apply Z.ltb_lt]; lia. }
  rewrite E, Nat2Z.id. repeat split.
  - rewrite set_nth_length. apply repeat_length.
  - exact Hi.
  - apply set_nth_same. rewrite repeat_length. exact Hi.
  - intros j Hj. rewrite set_nth_other by exact Hj. apply nth_repeat_0.
Qed.

(** The buffer depends on the first [MAX] bytes of the document only. *)
Lemma padded_firstn (raw : list Byte.byte) : padded (firstn MAX raw) = padded raw.
Proof. unfold padded. rewrite firstn_firstn, Nat.min_id. reflexivity. Qed.

Lemma length_padded (raw : list Byte.byte) : List.length (padded raw) = MAX.
Proof.
  unfold padded. rewrite length_app, repeat_length, length_map, length_firstn. lia.
Qed.

Lemma byte_to_Z_range (b : Byte.byte) : 0 <= byte_to_Z b <= 255.
Proof.
  unfold byte_to_Z. pose proof (Byte.to_N_bounded b) as H. lia.
Qed.

Lemma padded_bytes (raw : list Byte.byte) (i : nat) : 0 <= nth i (padded raw) 0 <= 255.
Proof.
  destruct (Nat.lt_ge_cases i (List.length (padded raw))) as [Hi|Hi].
  - assert (Hin : In (nth i (padded raw) 0) (padded raw)) by (apply nth_In, Hi).
    revert Hin. generalize (nth i (padded raw) 0). intros z Hin.
    unfold padded in Hin. apply in_app_or in Hin. destruct Hin as [Hin|Hin].
    + apply in_map_iff in Hin. destruct Hin as (b & <- & _). apply byte_to_Z_range.
    + apply repeat_spec in Hin. rewrite Hin. lia.
  - rewrite nth_overflow by exact Hi. lia.
Qed.

End BuilderFacts.

(** ** C7 and C8: what the builder answers *)

Module BuilderTheorems.
Import Builder Notions BuilderFacts.

(** The search, the test on the three indices and the loop of [build],
    spelled out for a buffer. *)
Lemma build_cases (p : Z) (poseidon : Zmod p -> Zmod p -> Zmod p) (raw : list Byte.byte) :
  let buf := padded raw in
  ((~ occurs buf (strBytesAscii fromStr) \/ ~ occurs buf (strBytesAscii toStr)
    \/ ~ occurs buf (strBytesAscii atgStr))
   /\ run p poseidon raw = Some (Exit 2))
  \/ (exists i_from i_to i_atg h,
        first_occurrence buf (strBytesAscii fromStr) i_from /\
        first_occurrence buf (strBytesAscii toStr) i_to /\
        first_occurrence buf (strBytesAscii atgStr) i_atg /\
        commitment_loop p poseidon MAX buf 0 0 = Some h /\
        run p poseidon raw
        = Some (Written {| eml_commitment := h; eml := buf;
                           from_bytes := strBytesAscii fromStr;
                           to_bytes := strBytesAscii toStr;
                           atg_bytes := strBytesAscii atgStr;
                           sel_from := oneHot MAX (Z.of_nat i_from);
                           sel_to := oneHot MAX (Z.of_nat i_to);
                           sel_atg := oneHot MAX (Z.of_nat i_atg) |})).
Proof.
  intros buf. unfold run, build. fold buf.
  destruct (indexOf_spec buf (strBytesAscii fromStr)) as [[E1 N1]|(i1 & E1 & F1)].
  { left. split; [auto|]. rewrite E1. reflexivity. }
  destruct (indexOf_spec buf (strBytesAscii toStr)) as [[E2 N2]|(i2 & E2 & F2)].
  { left. split; [auto|]. rewrite E2.
    replace (indexOf buf (strBytesAscii fromStr) <? 0) with false
      by (symmetry; apply Z.ltb_ge; lia).
    reflexivity. }
  destruct (indexOf_spec buf (strBytesAscii atgStr)) as [[E3 N3]|(i3 & E3 & F3)].
  { left. split; [auto|]. rewrite E3.
    replace (indexOf buf (strBytesAscii fromStr) <? 0) with false
      by (symmetry; apply Z.ltb_ge; lia).
    replace (indexOf buf (strBytesAscii toStr) <? 0) with false
      by (symmetry; apply Z.ltb_ge; lia).
    reflexivity. }
  right. exists i1, i2, i3.
  exists (js_chain poseidon buf 0 265 0).
  assert (Hloop : commitment_loop p poseidon MAX buf 0 0
                  = Some (js_chain poseidon buf 0 265 0)).
  { apply CommitmentFacts.commitment_loop_chain; unfold MAX; R1CSFacts.size_lia. }
  split; [exact F1|]. split; [exact F2|]. split; [exact F3|]. split; [exact Hloop|].
  rewrite E1, E2, E3, Hloop.
  replace (Z.of_nat i1 <? 0) with false by (symmetry; apply Z.ltb_ge; lia).
  replace (Z.of_nat i2 <? 0) with false by (symmetry; apply Z.ltb_ge; lia).
  replace (Z.of_nat i3 <? 0) with false by (symmetry; apply Z.ltb_ge; lia).
  reflexivity.
Qed.

(** C7 (builder errors and first match).  For every document: when one of
    ["From:"], ["To:"], ["@gmail.com"] is not found in the padded buffer of
    [MAX] bytes, the run ends with [process.exit(2)] and [input.json] is not
    written; when the three are found, [input.json] is written, over that
    buffer, and each of its selectors has [MAX] entries, a one at the lowest
    index where its literal is found and zeros elsewhere. *)
Theorem builder_error_and_first_match
  (p : Z) (poseidon : Zmod p -> Zmod p -> Zmod p) (raw : list Byte.byte) :
  let buf := padded raw in
  ((~ occurs buf (strBytesAscii fromStr) \/ ~ occurs buf (strBytesAscii toStr)
    \/ ~ occurs buf (strBytesAscii atgStr)) ->
   run p poseidon raw = Some (Exit 2))
  /\ (occurs buf (strBytesAscii fromStr) -> occurs buf (strBytesAscii toStr) ->
      occurs buf (strBytesAscii atgStr) ->
      exists input i_from i_to i_atg,
        run p poseidon raw = Some (Written input) /\ eml input = buf /\
        first_occurrence buf (strBytesAscii fromStr) i_from /\
        one_hot_list (sel_from input) i_from /\
        first_occurrence buf (strBytesAscii toStr) i_to /\
        one_hot_list (sel_to input) i_to /\
        first_occurrence buf (strBytesAscii atgStr) i_atg /\
        one_hot_list (sel_atg input) i_atg).
Proof.
  intros buf. subst buf.
  assert (Hin : forall needle i, needle <> [] ->
                  first_occurrence (padded raw) needle i -> (i < MAX)%nat).
  { intros needle i Hne [Hocc _]. pose proof (occurs_at_bound _ _ _ Hocc Hne) as Hb.
    rewrite length_padded in Hb.
    destruct needle; [congruence|]. simpl in Hb. lia. }
  destruct (build_cases p poseidon raw)
    as [[Hno Hrun]|(i1 & i2 & i3 & h & F1 & F2 & F3 & _ & Hrun)].
  - split; [intros _; exact Hrun|].
    intros O1 O2 O3. exfalso. destruct Hno as [H|[H|H]]; auto.
  - split.
    + intros [H|[H|H]]; exfalso; apply H; eexists;
        [apply F1|apply F2|apply F3].
    + intros _ _ _. eexists. exists i1, i2, i3.
      split; [exact Hrun|]. cbn [eml sel_from sel_to sel_atg].
      split; [reflexivity|].
      assert (N1 : strBytesAscii fromStr <> []) by (vm_compute; discriminate).
      assert (N2 : strBytesAscii toStr <> []) by (vm_compute; discriminate).
      assert (N3 : strBytesAscii atgStr <> []) by (vm_compute; discriminate).
      split; [exact F1|]. split; [apply oneHot_spec, (Hin _ _ N1 F1)|].
      split; [exact F2|]. split; [apply oneHot_spec, (Hin _ _ N2 F2)|].
      split; [exact F3|]. apply oneHot_spec, (Hin _ _ N3 F3).
Qed.

(** C8 (truncation).  Two documents with the same first [MAX] bytes get
    the same padded buffer and the same answer from the builder, exit or
    [input.json] with its commitment, buffer and selectors; so do a
    document of at least [MAX] bytes and the same document with more bytes
    appended. *)
Theorem truncation_noninterference
  (p : Z) (poseidon : Zmod p -> Zmod p -> Zmod p) :
  (forall raw1 raw2 : list Byte.byte,
      firstn MAX raw1 = firstn MAX raw2 ->
      padded raw1 = padded raw2 /\ run p poseidon raw1 = run p poseidon raw2)
  /\ (forall D extra : list Byte.byte,
        (MAX <= List.length D)%nat ->
        run p poseidon (D ++ extra) = run p poseidon D).
Proof.
  assert (Hpad : forall raw1 raw2 : list Byte.byte,
             firstn MAX raw1 = firstn MAX raw2 -> padded raw1 = padded raw2).
  { intros raw1 raw2 H. rewrite <- (padded_firstn raw1), <- (padded_firstn raw2), H.
    reflexivity. }
  split.
  - intros raw1 raw2 H. split; [apply Hpad, H|].
    unfold run, build. rewrite (Hpad _ _ H). reflexivity.
  - intros D extra HD. unfold run, build.
    rewrite (Hpad (D ++ extra) D); [reflexivity|].
    rewrite firstn_app.
    replace (MAX - List.length D)%nat with 0%nat by lia.
    rewrite firstn_O, app_nil_r. reflexivity.
Qed.

End BuilderTheorems.

(** ** From an [input.json] to a satisfying assignment *)

Module EndToEnd.
Import R1CS R1CSFacts Circuit Notions LiteralFacts PackFacts CircuitFacts CommitmentFacts.
Import BuilderFacts.

Section Facts.
  Variable p : Z.
  Hypothesis p_prime : Z.prime p.
  Abbreviation F := (Zmod p).
  Variable Poseidon : F -> F -> F.
  Local Open Scope Zmod_scope.

Lemma one_hot_of_list (sel : list Z) (t : nat) :
    one_hot_list sel t -> one_hot_at (map (Zmod.of_Z p) sel) t.
  Proof.
    intros (_ & _ & H1 & H0). split.
    - rewrite get_map_of_Z, H1. apply Zmod.of_Z_1.
    - intros u Hu. rewrite get_map_of_Z, (H0 u Hu). apply Zmod.of_Z_0.
  Qed.

  (** A literal found in the buffer at [t], with the selector one-hot at
      [t], satisfies its gadget. *)
Lemma literal_found_sat (LIT_LEN : nat) (buf lit sel : list Z) (t : nat) :
    List.length buf = 8192%nat -> List.length lit = LIT_LEN -> lit <> [] ->
    occurs_at buf lit t -> one_hot_list sel t ->
    satisfied (snd (LiteralAtIndex p 8192 LIT_LEN (map (Zmod.of_Z p) buf)
                                   (map (Zmod.of_Z p) lit) (map (Zmod.of_Z p) sel)))
    = true.
  Proof.
    intros Hbuf Hlit Hne Hocc Hsel.
    apply (LiteralAtIndex_one_hot_sat p p_prime _ _ _ _ _ t).
    - pose proof (occurs_at_bound _ _ _ Hocc Hne). lia.
    - apply one_hot_of_list, Hsel.
    - intros i Hi. rewrite !get_map_of_Z. f_equal.
      apply occurs_at_nth; [exact Hocc|lia].
  Qed.

  (** Over a buffer of bytes, the bits that the witness calculator assigns
      pass every byte check. *)
Lemma byte_checks_sat (buf : list Z) :
    (forall i, (0 <= nth i buf 0 <= 255)%Z) ->
    satisfied (snd (RollingPoseidon p Poseidon 8192 265 (map (Zmod.of_Z p) buf)
                 (fun c k => Num2Bits_witness p 8
                    (get (packer_bytes p 8192 (map (Zmod.of_Z p) buf) c) k))))
    = true.
  Proof.
    intros Hbytes. pose proof (p_ge_2 p p_prime) as Hp.
    apply RollingPoseidon_sat. intros c k Hc Hk.
    unfold ByteIsUint8. cbn [snd]. apply (Num2Bits_witness_sat p p_prime).
    change (2 ^ Z.of_nat 8)%Z with 256%Z.
    rewrite packer_bytes_get by exact Hk.
    destruct (_ <? _)%nat.
    - rewrite get_map_of_Z, Zmod.unsigned_of_Z.
      pose proof (Hbytes (c * 31 + k)%nat) as Hb.
      pose proof (Z.mod_le (nth (c * 31 + k) buf 0%Z) p). lia.
    - rewrite Zmod.unsigned_0. lia.
  Qed.

  (** An [input.json] whose buffer holds 8192 bytes, whose commitment is the
      one of the circuit, and whose literals are found in the buffer where
      its selectors point, gives a satisfying assignment of the main
      component. *)
Lemma input_satisfies_main (input : Builder.Input) (t_from t_to t_atg : nat) :
    List.length (Builder.eml input) = 8192%nat ->
    (forall i, (0 <= nth i (Builder.eml input) 0 <= 255)%Z) ->
    Zmod.of_Z p (Builder.eml_commitment input)
    = fst (RollingPoseidon p Poseidon 8192 265
             (map (Zmod.of_Z p) (Builder.eml input))
             (n2b_out p (Witness.to_signals p input))) ->
    List.length (Builder.from_bytes input) = 5%nat ->
    List.length (Builder.to_bytes input) = 3%nat ->
    List.length (Builder.atg_bytes input) = 10%nat ->
    occurs_at (Builder.eml input) (Builder.from_bytes input) t_from ->
    occurs_at (Builder.eml input) (Builder.to_bytes input) t_to ->
    occurs_at (Builder.eml input) (Builder.atg_bytes input) t_atg ->
    one_hot_list (Builder.sel_from input) t_from ->
    one_hot_list (Builder.sel_to input) t_to ->
    one_hot_list (Builder.sel_atg input) t_atg ->
    satisfied (main p Poseidon (Witness.to_signals p input)) = true.
  Proof.
    intros Hlen Hbytes Hcommit L1 L2 L3 O1 O2 O3 S1 S2 S3.
    unfold main. apply EmlHasHeadersSimple_sat.
    unfold Witness.to_signals in *.
    cbn [eml eml_commitment from_bytes to_bytes atg_bytes sel_from sel_to sel_atg n2b_out] in *.
    split; [apply byte_checks_sat, Hbytes|].
    split; [symmetry; exact Hcommit|].
    assert (Hne : forall (l : list Z) n, List.length l = S n -> l <> [])
      by (intros l n H ->; discriminate).
    split; [|split].
    - apply (literal_found_sat 5 _ _ _ t_from); eauto.
    - apply (literal_found_sat 3 _ _ _ t_to); eauto.
    - apply (literal_found_sat 10 _ _ _ t_atg); eauto.
  Qed.
End Facts.

End EndToEnd.

(** ** C5: nothing pins the literals *)

Module GapTheorems.
Import R1CS R1CSFacts Circuit Notions Samples CommitmentFacts BuilderFacts EndToEnd.

Lemma indexOf_absent (buf needle : list Z) :
  Builder.indexOf buf needle = -1 -> ~ occurs buf needle.
Proof.
  intros H. destruct (indexOf_spec buf needle) as [[_ Hno]|(k & Hk & _)]; [exact Hno|lia].
Qed.

Lemma of_Z_eq_divide (p a b : Z) : Zmod.of_Z p a = Zmod.of_Z p b -> (p | a - b).
Proof.
  intros H. apply Zmod.of_Z_inj in H.
  destruct (Z.eq_dec p 0) as [->|Hp].
  - rewrite !Z.mod_0_r in H. subst. exists 0. lia.
  - apply Z.mod_divide; [exact Hp|].
    rewrite Zminus_mod, H, Z.sub_diag. apply Z.mod_0_l, Hp.
Qed.

(** Field elements read from consecutive integers differ. *)
Lemma of_Z_succ_neq (p : Z) (a : Z) :
  2 <= p -> Zmod.of_Z p (a + 1) <> Zmod.of_Z p a.
Proof.
  intros Hp H. apply of_Z_eq_divide in H.
  replace (a + 1 - a) with 1 in H by lia.
  apply Z.divide_1_r in H. lia.
Qed.

(** C5 (literal substitution gap).  The literals are inputs of the main
    component like the buffer and the selectors, and no constraint mentions
    the bytes of ["From:"], ["To:"] or ["@gmail.com"]: there is a document
    whose padded buffer holds none of the three, and an assignment over that
    buffer that satisfies every constraint of the main component, with
    literals of 5, 3 and 10 bytes cut out of the buffer and different from
    the intended ones. *)
Theorem literal_substitution_gap
  (p : Z) (p_prime : Z.prime p) (Poseidon : Zmod p -> Zmod p -> Zmod p) :
  exists (raw : list Byte.byte) (s : Signals p) (t_from t_to t_atg : nat),
    let buf := Builder.padded raw in
    let fe := map (Zmod.of_Z p) in
    (~ occurs buf (Builder.strBytesAscii Builder.fromStr)
     /\ ~ occurs buf (Builder.strBytesAscii Builder.toStr)
     /\ ~ occurs buf (Builder.strBytesAscii Builder.atgStr))
    /\ eml p s = fe buf
    /\ (from_bytes p s = fe (Builder.slice buf t_from (t_from + 5))
        /\ List.length (from_bytes p s) = 5%nat
        /\ from_bytes p s <> fe (Builder.strBytesAscii Builder.fromStr))
    /\ (to_bytes p s = fe (Builder.slice buf t_to (t_to + 3))
        /\ List.length (to_bytes p s) = 3%nat
        /\ to_bytes p s <> fe (Builder.strBytesAscii Builder.toStr))
    /\ (atg_bytes p s = fe (Builder.slice buf t_atg (t_atg + 10))
        /\ List.length (atg_bytes p s) = 10%nat
        /\ atg_bytes p s <> fe (Builder.strBytesAscii Builder.atgStr))
    /\ satisfied (main p Poseidon s) = true.
Proof.
  pose proof (p_ge_2 p p_prime) as Hp.
  set (raw := plain_message).
  destruct (commitment_loop_circuit p Poseidon Poseidon (Builder.padded raw)
              (fun c k => Num2Bits_witness p 8
                 (get (packer_bytes p 8192 (map (Zmod.of_Z p) (Builder.padded raw)) c) k))
              (fun a b => eq_refl) (CommitmentFacts.length_padded_8192 raw))
    as (h & _ & Hh).
  exists raw, (Witness.to_signals p (substituted h raw 9 0 21)), 9%nat, 0%nat, 21%nat.
  intros buf fe.
  split.
  { repeat split; apply indexOf_absent; vm_compute; reflexivity. }
  split; [reflexivity|].
  assert (Hhd : forall (l l' : list Z) a b, l = a :: skipn 1 l -> l' = b :: skipn 1 l' ->
            map (Zmod.of_Z p) l = map (Zmod.of_Z p) l' -> Zmod.of_Z p a = Zmod.of_Z p b).
  { intros l l' a b -> -> H. cbn [map] in H.
    apply (f_equal (@hd (Zmod p) Zmod.zero)) in H. exact H. }
  split.
  { split; [reflexivity|]. split; [reflexivity|]. intros H.
    apply (of_Z_succ_neq p 70 Hp),
      (Hhd (Builder.slice (Builder.padded raw) 9 (9 + 5))
           (Builder.strBytesAscii Builder.fromStr) 71 70); auto;
      vm_compute; reflexivity. }
  split.
  { split; [reflexivity|]. split; [reflexivity|]. intros H.
    apply (of_Z_succ_neq p 83 Hp). symmetry.
    apply (Hhd (Builder.slice (Builder.padded raw) 0 (0 + 3))
               (Builder.strBytesAscii Builder.toStr) 83 84); auto;
      vm_compute; reflexivity. }
  split.
  { split; [reflexivity|]. split; [reflexivity|]. intros H.
    apply (of_Z_succ_neq p 64 Hp),
      (Hhd (Builder.slice (Builder.padded raw) 21 (21 + 10))
           (Builder.strBytesAscii Builder.atgStr) 65 64); auto;
      vm_compute; reflexivity. }
  apply (input_satisfies_main p p_prime Poseidon _ 9 0 21).
  - apply CommitmentFacts.length_padded_8192.
  - apply padded_bytes.
  - exact Hh.
  - reflexivity.
  - reflexivity.
  - reflexivity.
  - vm_compute. reflexivity.
  - vm_compute. reflexivity.
  - vm_compute. reflexivity.
  - apply (oneHot_spec 9). unfold Builder.MAX. size_lia.
  - apply (oneHot_spec 0). unfold Builder.MAX. size_lia.
  - apply (oneHot_spec 21). unfold Builder.MAX. size_lia.
Qed.

End GapTheorems.

(** ** C9: the polling loops of the relayer script *)

Module RelayerTheorems.
Import Relayer Samples.

(** The first loop has no way out but an [Aggregated] status. *)
Lemma poll_forever_aggregated (fuel : nat) (responses : nat -> string) (k : nat)
      (waited : Z) (st : polled) :
  poll_forever fuel responses k waited = Some st ->
  is_aggregated (last_status st) = true.
Proof.
  revert k waited. induction fuel as [|fuel IH]; intros k waited H; [discriminate|].
  cbn [poll_forever] in H. destruct (is_aggregated (responses k)) eqn:E.
  - injection H as <-. exact E.
  - apply (IH _ _ H).
Qed.

Lemma poll_forever_pending (responses : nat -> string) :
  (forall k, is_aggregated (responses k) = false) ->
  forall fuel k waited, poll_forever fuel responses k waited = None.
Proof.
  intros Hno. induction fuel as [|fuel IH]; intros k waited; [reflexivity|].
  cbn [poll_forever]. rewrite Hno. apply IH.
Qed.

(** C9, on the code: while the relayer keeps answering a status other than
    ['Aggregated'], the first polling loop of [main] does not end, however
    many iterations it is given, and [main] never reaches the loop that is
    bounded by 180 retries. *)
Theorem first_poll_never_gives_up :
  forall fuel : nat,
    poll_forever fuel always_pending 0 0 = None
    /\ after_submit fuel always_pending true = None.
Proof.
  intros fuel.
  assert (H : poll_forever fuel always_pending 0 0 = None)
    by (apply poll_forever_pending; reflexivity).
  split; [exact H|]. unfold after_submit. rewrite H. reflexivity.
Qed.

End RelayerTheorems.

(** ** The builder against the circuit *)

Module BuilderCircuitFacts.
Import R1CS R1CSFacts Circuit Notions CommitmentFacts BuilderFacts EndToEnd BuilderTheorems.

(** What the builder writes satisfies the main component. *)
Lemma run_satisfies_main
  (p : Z) (p_prime : Z.prime p) (Poseidon poseidon : Zmod p -> Zmod p -> Zmod p)
  (Hlib : forall a b, poseidon a b = Poseidon a b)
  (raw : list Byte.byte) (input : Builder.Input) :
  Builder.run p poseidon raw = Some (Builder.Written input) ->
  satisfied (main p Poseidon (Witness.to_signals p input)) = true.
Proof.
  intros Hrun.
  destruct (build_cases p poseidon raw)
    as [[_ Hexit]|(i1 & i2 & i3 & h & F1 & F2 & F3 & Hloop & Hwritten)].
  { rewrite Hexit in Hrun. discriminate. }
  rewrite Hwritten in Hrun. injection Hrun as <-.
  assert (Hin : forall needle i, needle <> [] ->
                  first_occurrence (Builder.padded raw) needle i -> (i < Builder.MAX)%nat).
  { intros needle i Hne [Hocc _]. pose proof (occurs_at_bound _ _ _ Hocc Hne) as Hb.
    rewrite BuilderFacts.length_padded in Hb.
    destruct needle; [congruence|]. simpl in Hb. lia. }
  assert (N1 : Builder.strBytesAscii Builder.fromStr <> []) by (vm_compute; discriminate).
  assert (N2 : Builder.strBytesAscii Builder.toStr <> []) by (vm_compute; discriminate).
  assert (N3 : Builder.strBytesAscii Builder.atgStr <> []) by (vm_compute; discriminate).
  apply (input_satisfies_main p p_prime Poseidon _ i1 i2 i3);
    cbn [Builder.eml Builder.eml_commitment Builder.from_bytes Builder.to_bytes
         Builder.atg_bytes Builder.sel_from Builder.sel_to Builder.sel_atg].
  - apply CommitmentFacts.length_padded_8192.
  - apply padded_bytes.
  - destruct (commitment_loop_circuit p Poseidon poseidon (Builder.padded raw)
                (n2b_out p (Witness.to_signals p
                   {| Builder.eml_commitment := h; Builder.eml := Builder.padded raw;
                      Builder.from_bytes := Builder.strBytesAscii Builder.fromStr;
                      Builder.to_bytes := Builder.strBytesAscii Builder.toStr;
                      Builder.atg_bytes := Builder.strBytesAscii Builder.atgStr;
                      Builder.sel_from := Builder.oneHot Builder.MAX (Z.of_nat i1);
                      Builder.sel_to := Builder.oneHot Builder.MAX (Z.of_nat i2);
                      Builder.sel_atg := Builder.oneHot Builder.MAX (Z.of_nat i3) |}))
                Hlib (CommitmentFacts.length_padded_8192 raw)) as (h' & Hh' & Heq).
    rewrite Hloop in Hh'. injection Hh' as <-. exact Heq.
  - reflexivity.
  - reflexivity.
  - reflexivity.
  - apply F1.
  - apply F2.
  - apply F3.
  - apply oneHot_spec, (Hin _ _ N1 F1).
  - apply oneHot_spec, (Hin _ _ N2 F2).
  - apply oneHot_spec, (Hin _ _ N3 F3).
Qed.

End BuilderCircuitFacts.

(** ** Instances over the prime 65537 *)

Module Instances.
Import R1CS R1CSFacts Circuit Notions Samples LiteralFacts BuilderFacts SmallPrime SmallPrimeFacts.
Import LiteralTheorems RangeTheorems CommitmentTheorems BuilderTheorems GapTheorems.
Local Open Scope Zmod_scope.

Lemma sel_at_one_hot (n t : nat) : (t < n)%nat -> one_hot_at (sel_at n t) t.
Proof.
  intros Ht. unfold sel_at, fe. split.
  - rewrite CommitmentFacts.get_map_of_Z, set_nth_same by (rewrite repeat_length; exact Ht).
    apply Zmod.of_Z_1.
  - intros u Hu. rewrite CommitmentFacts.get_map_of_Z, set_nth_other by exact Hu.
    rewrite nth_repeat_0. apply Zmod.of_Z_0.
Qed.

Lemma gmail_message_written :
  Builder.run q toy_poseidon gmail_message = Some (Builder.Written (written gmail_message)).
Proof. vm_compute. reflexivity. Qed.

Lemma gmail_message_satisfies :
  satisfied (main q toy_poseidon (Witness.to_signals q (written gmail_message))) = true.
Proof.
  apply (BuilderCircuitFacts.run_satisfies_main q q_prime toy_poseidon toy_poseidon
           (fun a b => eq_refl) gmail_message).
  exact gmail_message_written.
Qed.

Lemma literal_occurrence_soundness_witness :
  (exists t, (t + 3 <= 8)%nat /\ get (sel_at 8 2) t = 1 /\
             forall i, (i < 3)%nat -> get eml8 (t + i) = get lit3 i)
  /\ satisfied (snd (LiteralAtIndex q 8 3 eml8 lit3 (sel_at 8 4))) = false
  /\ satisfied (snd (LiteralAtIndex q 8 3 eml8 lit3 (sel_at 8 2))) = true.
Proof.
  split; [|split].
  - apply (proj1 (literal_occurrence_soundness q q_prime 8 3 eml8 lit3 (sel_at 8 2))).
    vm_compute. reflexivity.
  - apply (proj1 (proj2 (literal_occurrence_soundness q q_prime 8 3 eml8 lit3 (sel_at 8 4)))
             4%nat).
    + apply sel_at_one_hot. lia.
    + exists 0%nat. split; [lia|]. vm_compute. discriminate.
  - apply (proj2 (proj2 (literal_occurrence_soundness q q_prime 8 3 eml8 lit3 (sel_at 8 2)))
             2%nat).
    + lia.
    + apply sel_at_one_hot. lia.
    + intros i Hi.
      destruct i as [|[|[|i]]]; [vm_compute; reflexivity ..|lia].
Defined.

Lemma one_hot_enforcement_witness :
  ((forall t, (t < 6)%nat -> get (sel_at 8 2) t = 0 \/ get (sel_at 8 2) t = 1) /\
   window_sum (sel_at 8 2) 6 = 1%Z /\
   (forall u, (6 <= u < 8)%nat -> get (sel_at 8 2) u = 0))
  /\ satisfied (snd (LiteralAtIndex q 8 3 eml8 lit3 sel_zero)) = false
  /\ satisfied (snd (LiteralAtIndex q 8 3 eml8 lit3 sel_two)) = false.
Proof.
  assert (Hsize : (Z.of_nat 8 < q)%Z) by (vm_compute; reflexivity).
  split; [|split].
  - apply (proj1 (one_hot_enforcement q q_prime 8 3 Hsize eml8 lit3 (sel_at 8 2))).
    vm_compute. reflexivity.
  - apply (proj1 (proj2 (one_hot_enforcement q q_prime 8 3 Hsize eml8 lit3 sel_zero))).
    intros u. unfold sel_zero, fe.
    rewrite CommitmentFacts.get_map_of_Z, nth_repeat_0. apply Zmod.of_Z_0.
  - apply (proj2 (proj2 (one_hot_enforcement q q_prime 8 3 Hsize eml8 lit3 sel_two))
             1%nat 2%nat); try lia; vm_compute; reflexivity.
Defined.

Lemma byte_range_check_witness :
  (exists n2b_out, satisfied (snd (ByteIsUint8 q (fe 200) n2b_out)) = true)
  /\ satisfied (main q toy_poseidon wide_entry) = false.
Proof.
  split.
  - apply (proj1 (byte_range_check q q_prime toy_poseidon) (fe 200)).
    vm_compute. split; discriminate.
  - apply (proj2 (byte_range_check q q_prime toy_poseidon) wide_entry 0%nat).
    + size_lia.
    + vm_compute. intros [_ H]. apply H. reflexivity.
Defined.

Lemma literal_range_invariant_witness :
  let s := Witness.to_signals q (written gmail_message) in
  literal_in_buffer 5 (eml q s) (from_bytes q s) (sel_from q s)
  /\ literal_in_buffer 3 (eml q s) (to_bytes q s) (sel_to q s)
  /\ literal_in_buffer 10 (eml q s) (atg_bytes q s) (sel_atg q s).
Proof.
  apply (literal_range_invariant q q_prime toy_poseidon).
  - vm_compute. reflexivity.
  - exact gmail_message_satisfies.
Defined.

Lemma rolling_commitment_definition_witness :
  let buffer := Builder.padded gmail_message in
  Spec.chunk buffer 264 = firstn 8 (skipn 8184 buffer) ++ repeat 0%Z 23
  /\ fst (RollingPoseidon q toy_poseidon 8192 265 (map (Zmod.of_Z q) buffer)
                          (fun _ _ => []))
     = Spec.commitment q toy_poseidon 8192 buffer
  /\ eml_commitment q (Witness.to_signals q (written gmail_message))
     = Spec.commitment q toy_poseidon 8192
         (map Zmod.to_Z (eml q (Witness.to_signals q (written gmail_message)))).
Proof.
  intros buffer. split; [|split].
  - apply (proj1 (proj2 (rolling_commitment_definition q toy_poseidon))).
    vm_compute. reflexivity.
  - apply (proj1 (proj2 (proj2 (rolling_commitment_definition q toy_poseidon)))).
    vm_compute. reflexivity.
  - apply (proj2 (proj2 (proj2 (rolling_commitment_definition q toy_poseidon)))).
    + vm_compute. reflexivity.
    + exact gmail_message_satisfies.
Defined.

Lemma builder_circuit_commitment_agreement_witness :
  (exists h, Builder.commitment_loop q toy_poseidon Builder.MAX
               (Builder.padded gmail_message) 0 0 = Some h /\
             Zmod.of_Z q h
             = fst (RollingPoseidon q toy_poseidon 8192 265
                      (map (Zmod.of_Z q) (Builder.padded gmail_message))
                      (fun _ _ => [])))
  /\ holds (Ceq (fst (RollingPoseidon q toy_poseidon 8192 265
                        (eml q (Witness.to_signals q (written gmail_message)))
                        (n2b_out q (Witness.to_signals q (written gmail_message)))))
                (eml_commitment q (Witness.to_signals q (written gmail_message))))
     = true.
Proof.
  split.
  - apply (proj1 (builder_circuit_commitment_agreement q toy_poseidon toy_poseidon
                    (fun a b => eq_refl))).
    vm_compute. reflexivity.
  - apply (proj2 (builder_circuit_commitment_agreement q toy_poseidon toy_poseidon
                    (fun a b => eq_refl)) gmail_message).
    exact gmail_message_written.
Defined.

Lemma literal_substitution_gap_witness :
  exists (raw : list Byte.byte) (s : Signals q) (t_from t_to t_atg : nat),
    (~ occurs (Builder.padded raw) (Builder.strBytesAscii Builder.fromStr)
     /\ ~ occurs (Builder.padded raw) (Builder.strBytesAscii Builder.toStr)
     /\ ~ occurs (Builder.padded raw) (Builder.strBytesAscii Builder.atgStr))
    /\ from_bytes q s <> map (Zmod.of_Z q) (Builder.strBytesAscii Builder.fromStr)
    /\ to_bytes q s <> map (Zmod.of_Z q) (Builder.strBytesAscii Builder.toStr)
    /\ atg_bytes q s <> map (Zmod.of_Z q) (Builder.strBytesAscii Builder.atgStr)
    /\ satisfied (main q toy_poseidon s) = true.
Proof.
  destruct (literal_substitution_gap q q_prime toy_poseidon)
    as (raw & s & t1 & t2 & t3 & H).
  cbv zeta in H. destruct H as (Hno & _ & (_ & _ & H1) & (_ & _ & H2) & (_ & _ & H3) & Hsat).
  exists raw, s, t1, t2, t3. auto.
Defined.

Lemma builder_error_and_first_match_witness :
  Builder.run q toy_poseidon plain_message = Some (Builder.Exit 2)
  /\ exists input i_from i_to i_atg,
       Builder.run q toy_poseidon gmail_message = Some (Builder.Written input) /\
       Builder.eml input = Builder.padded gmail_message /\
       first_occurrence (Builder.padded gmail_message)
                        (Builder.strBytesAscii Builder.fromStr) i_from /\
       one_hot_list (Builder.sel_from input) i_from /\
       first_occurrence (Builder.padded gmail_message)
                        (Builder.strBytesAscii Builder.toStr) i_to /\
       one_hot_list (Builder.sel_to input) i_to /\
       first_occurrence (Builder.padded gmail_message)
                        (Builder.strBytesAscii Builder.atgStr) i_atg /\
       one_hot_list (Builder.sel_atg input) i_atg.
Proof.
  split.
  - apply (proj1 (builder_error_and_first_match q toy_poseidon plain_message)).
    left. apply indexOf_absent. vm_compute. reflexivity.
  - apply (proj2 (builder_error_and_first_match q toy_poseidon gmail_message)).
    + exists 0%nat. vm_compute. reflexivity.
    + exists 24%nat. vm_compute. reflexivity.
    + exists 31%nat. vm_compute. reflexivity.
Defined.

Lemma truncation_noninterference_witness :
  let D := repeat Byte.x41 8192 in
  (Builder.padded (D ++ [Byte.x42]) = Builder.padded D /\
   Builder.run q toy_poseidon (D ++ [Byte.x42]) = Builder.run q toy_poseidon D)
  /\ Builder.run q toy_poseidon (D ++ [Byte.x43; Byte.x44]) = Builder.run q toy_poseidon D.
Proof.
  intros D. split.
  - apply (proj1 (truncation_noninterference q toy_poseidon)).
    vm_compute. reflexivity.
  - apply (proj2 (truncation_noninterference q toy_poseidon)).
    apply Nat.leb_le. vm_compute. reflexivity.
Defined.

End Instances.

(** ** More on the polling loops of the relayer script *)

Module RelayerExtras.
Import Relayer Samples.

Lemma poll_forever_from (responses : nat -> string) (n : nat) :
  is_aggregated (responses n) = true ->
  forall d fuel k waited, n = (k + d)%nat ->
    (forall j, (k <= j < n)%nat -> is_aggregated (responses j) = false) ->
    poll_forever fuel responses k waited
    = if (d <? fuel)%nat
      then Some {| last_status := responses n; requests := S n;
                   waited_ms := waited + 5000 * Z.of_nat d |}
      else None.
Proof.
  intros Hn. induction d as [|d IH]; intros fuel k waited Hk Hbefore.
  - replace k with n by lia. destruct fuel as [|fuel]; [reflexivity|].
    cbn [poll_forever]. rewrite Hn. cbn [Nat.ltb Nat.leb]. do 2 f_equal. lia.
  - destruct fuel as [|fuel]; [reflexivity|].
    cbn [poll_forever]. rewrite (Hbefore k) by lia.
    rewrite (IH fuel (S k) (waited + 5000)) by (try lia; intros; apply Hbefore; lia).
    change (S d <? S fuel)%nat with (d <? fuel)%nat.
    destruct (d <? fuel)%nat; [|reflexivity]. do 2 f_equal. lia.
Qed.

(** The first loop ends at the first ['Aggregated'] answer: when answer
    [n] is the first one with that status, the loop needs [n + 1]
    iterations, sends [n + 1] requests and sleeps [n] times 5 seconds;
    with fewer iterations it has not ended. *)
Theorem poll_forever_first_aggregated (responses : nat -> string) (n fuel : nat) :
  is_aggregated (responses n) = true ->
  (forall j, (j < n)%nat -> is_aggregated (responses j) = false) ->
  poll_forever fuel responses 0 0
  = if (n <? fuel)%nat
    then Some {| last_status := responses n; requests := S n;
                 waited_ms := 5000 * Z.of_nat n |}
    else None.
Proof.
  intros Hn Hbefore.
  rewrite (poll_forever_from responses n Hn n fuel 0 0) by (auto; intros; apply Hbefore; lia).
  reflexivity.
Qed.

Lemma poll_bounded_aggregated (remaining : nat) (responses : nat -> string) (st : polled) :
  is_aggregated (last_status st) = true -> poll_bounded remaining responses st = st.
Proof. intros H. destruct remaining; cbn [poll_bounded]; [|rewrite H]; reflexivity. Qed.

(** The second loop sends at most [remaining] requests, sleeps 5 seconds
    before each of them, and stops short of [remaining] only on an
    ['Aggregated'] answer: started with 180 it sleeps 15 minutes at most. *)
Theorem poll_bounded_bounds (remaining : nat) (responses : nat -> string) (st : polled) :
  let st' := poll_bounded remaining responses st in
  (requests st <= requests st' <= requests st + remaining)%nat
  /\ waited_ms st' = waited_ms st + 5000 * Z.of_nat (requests st' - requests st)
  /\ (is_aggregated (last_status st') = false ->
      requests st' = (requests st + remaining)%nat).
Proof.
  revert st. induction remaining as [|remaining IH]; intros st; cbn [poll_bounded].
  - cbv zeta. rewrite Nat.sub_diag. split; [lia|]. split; [lia|]. intros _. lia.
  - destruct (is_aggregated (last_status st)) eqn:E.
    + cbv zeta. rewrite Nat.sub_diag. split; [lia|]. split; [lia|]. congruence.
    + specialize (IH {| last_status := responses (requests st);
                        requests := S (requests st);
                        waited_ms := waited_ms st + 5000 |}).
      cbv zeta in *. cbn [requests waited_ms] in IH.
      destruct IH as (Hr & Hw & Hn). split; [lia|]. split.
      * rewrite Hw. lia.
      * intros Hno. rewrite (Hn Hno). lia.
Qed.

(** [main] enters the 180-retry loop in no run: when the control flow
    after [submit-proof] ends, it has taken the [Aggregated && PRIVATE_KEY]
    branch on an ['Aggregated'] status, or [PRIVATE_KEY] is unset and the
    on-chain record is skipped. *)
Theorem bounded_loop_unreachable (fuel : nat) (responses : nat -> string)
        (PRIVATE_KEY : bool) (a : action) :
  after_submit fuel responses PRIVATE_KEY = Some a ->
  (PRIVATE_KEY = true /\
   exists st, a = RecordOnChain st /\ is_aggregated (last_status st) = true)
  \/ (PRIVATE_KEY = false /\ exists st, a = SkipNoWallet st).
Proof.
  unfold after_submit. destruct (poll_forever fuel responses 0 0) as [st|] eqn:E;
    [|discriminate].
  apply RelayerTheorems.poll_forever_aggregated in E. cbn [last_status]. rewrite E.
  destruct PRIVATE_KEY; cbn [andb]; intros H; injection H as <-.
  - left. split; [reflexivity|]. eexists. split; [reflexivity|exact E].
  - right. split; [reflexivity|]. eexists. reflexivity.
Qed.

End RelayerExtras.

(** ** More on the witness builder *)

Module BuilderExtras.
Import Builder Notions BuilderFacts R1CS Circuit.

(** Digit [i] of a positional sum whose digits lie below the base. *)
Lemma polyZ_digit (B : Z) (f : nat -> Z) :
  1 < B ->
  forall i n s, (i < n)%nat -> (forall j, (s <= j < s + n)%nat -> 0 <= f j < B) ->
    (polyZ B f s n / B ^ Z.of_nat i) mod B = f (s + i)%nat.
Proof.
  intros HB. induction i as [|i IH]; intros n s Hi Hf.
  - destruct n as [|n]; [lia|]. cbn [polyZ].
    rewrite Z.pow_0_r, Z.div_1_r, Nat.add_0_r.
    rewrite (Z.mul_comm B), Z.mod_add by lia.
    apply Z.mod_small, Hf. lia.
  - destruct n as [|n]; [lia|]. cbn [polyZ].
    rewrite Nat2Z.inj_succ, Z.pow_succ_r by lia.
    rewrite <- Z.div_div by (try lia; apply Z.pow_pos_nonneg; lia).
    rewrite (Z.mul_comm B (polyZ B f (S s) n)), Z.div_add by lia.
    rewrite (Z.div_small (f s) B) by (apply Hf; lia).
    rewrite Z.add_0_l, (IH n (S s)) by (try lia; intros; apply Hf; lia).
    f_equal. lia.
Qed.

(** [pack31LE] reads its argument as a little-endian number of 31 bytes:
    over entries in [0, 255] (a missing entry counts as zero) the result
    lies below [256^31], byte [i] of the result is entry [i], and two
    arguments with the same result have the same first 31 entries. *)
Theorem pack31LE_little_endian (bytes : list Z) :
  (forall i, 0 <= at_or_0 bytes i <= 255) ->
  0 <= pack31LE bytes < 256 ^ 31
  /\ (forall i, (i < 31)%nat ->
        (pack31LE bytes / 256 ^ Z.of_nat i) mod 256 = at_or_0 bytes i)
  /\ (forall bytes', (forall i, 0 <= at_or_0 bytes' i <= 255) ->
        pack31LE bytes = pack31LE bytes' ->
        forall i, (i < 31)%nat -> at_or_0 bytes i = at_or_0 bytes' i).
Proof.
  intros Hb.
  assert (Hdigit : forall bs, (forall i, 0 <= at_or_0 bs i <= 255) ->
            forall i, (i < 31)%nat ->
              (pack31LE bs / 256 ^ Z.of_nat i) mod 256 = at_or_0 bs i).
  { intros bs Hbs i Hi. rewrite CommitmentFacts.pack31LE_poly.
    rewrite (polyZ_digit 256 (at_or_0 bs) ltac:(lia) i 31 0 Hi); [reflexivity|].
    intros j _. specialize (Hbs j). lia. }
  split; [|split].
  - rewrite CommitmentFacts.pack31LE_poly.
    apply (PackFacts.polyZ_bounds 256 (at_or_0 bytes) 0 31); [lia|].
    intros j _. specialize (Hb j). lia.
  - apply Hdigit, Hb.
  - intros bytes' Hb' Heq i Hi.
    rewrite <- (Hdigit bytes Hb i Hi), <- (Hdigit bytes' Hb' i Hi), Heq. reflexivity.
Qed.

(** [oneHot(length, pos)] always has [length] entries; for a position
    inside the array it holds a one there and zeros elsewhere; for any
    other [pos], the [-1] of a failed search included, it holds zeros
    only. *)
Theorem oneHot_behaviour (length : nat) (pos : Z) :
  List.length (oneHot length pos) = length
  /\ (0 <= pos < Z.of_nat length ->
      nth (Z.to_nat pos) (oneHot length pos) 0 = 1
      /\ forall j, j <> Z.to_nat pos -> nth j (oneHot length pos) 0 = 0)
  /\ (pos < 0 \/ Z.of_nat length <= pos -> oneHot length pos = repeat 0 length).
Proof.
  unfold oneHot.
  destruct ((0 <=? pos) && (pos <? Z.of_nat length)) eqn:E.
  - apply andb_true_iff in E. destruct E as [E1 E2].
    apply Z.leb_le in E1. apply Z.ltb_lt in E2.
    split; [rewrite set_nth_length; apply repeat_length|]. split; [|lia].
    intros _. split.
    + apply set_nth_same. rewrite repeat_length. lia.
    + intros j Hj. rewrite set_nth_other by exact Hj. apply nth_repeat_0.
  - apply andb_false_iff in E.
    split; [apply repeat_length|]. split; [|reflexivity].
    intros Hin. exfalso. destruct E as [E|E];
      [apply Z.leb_gt in E|apply Z.ltb_ge in E]; lia.
Qed.

(** Every [input.json] that the builder writes, read by the witness
    calculator, satisfies all the constraints of the main component (when
    circomlibjs's [poseidon] computes the function of the circuit's
    [Poseidon(2)]). *)
Theorem builder_output_satisfies_circuit
  (p : Z) (p_prime : Z.prime p) (Poseidon poseidon : Zmod p -> Zmod p -> Zmod p)
  (Hlib : forall a b, poseidon a b = Poseidon a b)
  (raw : list Byte.byte) (input : Input) :
  run p poseidon raw = Some (Written input) ->
  satisfied (main p Poseidon (Witness.to_signals p input)) = true.
Proof. apply BuilderCircuitFacts.run_satisfies_main; assumption. Qed.

End BuilderExtras.

(** ** More on the circuit *)

Module CircuitExtras.
Import R1CS R1CSFacts Circuit Notions PackFacts CircuitFacts CommitmentFacts.
Local Open Scope Zmod_scope.

(** [Bits1] passes its input through, and its constraint holds exactly
    when the input is 0 or 1. *)
Theorem Bits1_bit (p : Z) (p_prime : Z.prime p) (in_ : Zmod p) :
  fst (Bits1 p in_) = in_
  /\ (satisfied (snd (Bits1 p in_)) = true <-> in_ = 0 \/ in_ = 1).
Proof.
  split; [reflexivity|]. unfold Bits1. cbn [snd].
  rewrite satisfied_cons, holds_iff, (bit_constraint p p_prime).
  change (satisfied (@nil (constraint p))) with true. intuition auto.
Qed.

(** Two positional sums of 31 bytes that agree modulo [p >= 256^31] have
    the same bytes. *)
Lemma polyZ_bytes_inj (p : Z) (f g : nat -> Z) :
  (256 ^ 31 <= p)%Z ->
  (forall j, (j < 31)%nat -> 0 <= f j <= 255)%Z ->
  (forall j, (j < 31)%nat -> 0 <= g j <= 255)%Z ->
  Zmod.of_Z p (polyZ 256 f 0 31) = Zmod.of_Z p (polyZ 256 g 0 31) ->
  forall j, (j < 31)%nat -> f j = g j.
Proof.
  intros Hp Hf Hg Heq j Hj. apply Zmod.of_Z_inj in Heq.
  assert (Hbf : (0 <= polyZ 256 f 0 31 < 256 ^ Z.of_nat 31)%Z).
  { apply polyZ_bounds; [lia|]. intros i Hi. specialize (Hf i). lia. }
  assert (Hbg : (0 <= polyZ 256 g 0 31 < 256 ^ Z.of_nat 31)%Z).
  { apply polyZ_bounds; [lia|]. intros i Hi. specialize (Hg i). lia. }
  change (256 ^ Z.of_nat 31)%Z with (256 ^ 31)%Z in Hbf, Hbg.
  rewrite !Z.mod_small in Heq by lia.
  assert (Df := BuilderExtras.polyZ_digit 256 f ltac:(lia) j 31 0 Hj).
  assert (Dg := BuilderExtras.polyZ_digit 256 g ltac:(lia) j 31 0 Hj).
  cbn [Nat.add] in Df, Dg.
  rewrite <- Df, <- Dg, Heq; [reflexivity| |].
  - intros i Hi. specialize (Hg i). lia.
  - intros i Hi. specialize (Hf i). lia.
Qed.

(** Over a field of at least [256^31] elements, the output of
    [Pack31BytesLittleEndian] fixes its 31 bytes: two packers fed with
    values in [0, 255] (what their byte checks enforce) and with the same
    output have the same inputs. *)
Theorem Pack31_injective
  (p : Z) (Hp : (256 ^ 31 <= p)%Z) (bytes bytes' : list (Zmod p))
  (n2b_out n2b_out' : nat -> list (Zmod p)) :
  (forall i, (i < 31)%nat -> Zmod.to_Z (get bytes i) <= 255)%Z ->
  (forall i, (i < 31)%nat -> Zmod.to_Z (get bytes' i) <= 255)%Z ->
  fst (Pack31BytesLittleEndian p bytes n2b_out)
  = fst (Pack31BytesLittleEndian p bytes' n2b_out') ->
  forall i, (i < 31)%nat -> get bytes i = get bytes' i.
Proof.
  intros Hb Hb' Heq i Hi. rewrite !Pack31_out in Heq.
  assert (Hpos : (0 < p)%Z) by (assert (0 < 256 ^ 31)%Z by reflexivity; lia).
  apply Zmod.unsigned_inj.
  apply (polyZ_bytes_inj p (fun j => Zmod.to_Z (get bytes j))
                         (fun j => Zmod.to_Z (get bytes' j)) Hp); auto.
  - intros j Hj. pose proof (Zmod.unsigned_pos_bound (get bytes j) Hpos).
    specialize (Hb j Hj). lia.
  - intros j Hj. pose proof (Zmod.unsigned_pos_bound (get bytes' j) Hpos).
    specialize (Hb' j Hj). lia.
Qed.



End CircuitExtras.

(** ** The hexadecimal helpers of the relayer script *)

Module HexFacts.
Import Hex HexNotions.
Local Open Scope string_scope.

Lemma append_assoc (a b c : string) : (a ++ b) ++ c = a ++ (b ++ c).
Proof. induction a as [|x a IH]; simpl; [reflexivity|]. rewrite IH. reflexivity. Qed.

Lemma append_nil_r (a : string) : a ++ "" = a.
Proof. induction a as [|x a IH]; simpl; [reflexivity|]. rewrite IH. reflexivity. Qed.

Lemma length_append (a b : string) :
  String.length (a ++ b) = (String.length a + String.length b)%nat.
Proof. induction a as [|x a IH]; simpl; [reflexivity|]. rewrite IH. reflexivity. Qed.

Lemma length_repeat_char (c : ascii) (n : nat) : String.length (repeat_char c n) = n.
Proof. induction n as [|n IH]; simpl; [reflexivity|]. rewrite IH. reflexivity. Qed.

Lemma repeat_char_snoc (c : ascii) (n : nat) :
  repeat_char c n ++ String c "" = String c (repeat_char c n).
Proof. induction n as [|n IH]; simpl; [reflexivity|]. rewrite IH. reflexivity. Qed.

Lemma length_fixed_hex (k : nat) (v : Z) : String.length (fixed_hex k v) = k.
Proof.
  revert v. induction k as [|k IH]; intros v; simpl; [reflexivity|].
  rewrite length_append, IH. simpl. lia.
Qed.

(** With enough fuel, [hex_digits] writes the digits of [n] without a
    leading zero. *)
Lemma hex_digits_fixed (fuel : nat) :
  forall n acc, (0 <= n < 16 ^ Z.of_nat fuel)%Z -> (1 <= fuel)%nat ->
    exists k, (1 <= k <= fuel)%nat /\ hex_digits fuel n acc = fixed_hex k n ++ acc
              /\ (n < 16 ^ Z.of_nat k)%Z
              /\ (k = 1%nat \/ 16 ^ Z.of_nat (k - 1) <= n)%Z.
Proof.
  induction fuel as [|fuel IH]; intros n acc Hn Hfuel; [lia|].
  cbn [hex_digits]. destruct (Z.ltb_spec n 16) as [Hlt|Hge].
  - exists 1%nat. split; [lia|]. split; [reflexivity|]. split; [lia|]. left. reflexivity.
  - rewrite Nat2Z.inj_succ, Z.pow_succ_r in Hn by lia.
    assert (Hq : (0 <= n / 16 < 16 ^ Z.of_nat fuel)%Z).
    { split; [apply Z.div_pos; lia|apply Z.div_lt_upper_bound; lia]. }
    assert (Hf : (1 <= fuel)%nat).
    { destruct fuel; [|lia]. simpl in Hq. assert (1 <= n / 16)%Z; [|lia].
      apply Z.div_le_lower_bound; lia. }
    destruct (IH (n / 16)%Z (String (hex_digit (n mod 16)) acc) Hq Hf)
      as (k & Hk & Heq & Hlt & Hmin).
    exists (S k). split; [lia|]. split; [|split].
    + rewrite Heq. cbn [fixed_hex]. rewrite append_assoc. reflexivity.
    + rewrite Nat2Z.inj_succ, Z.pow_succ_r by lia.
      pose proof (Z.div_mod n 16 ltac:(lia)). pose proof (Z.mod_pos_bound n 16 ltac:(lia)).
      lia.
    + right. replace (S k - 1)%nat with k by lia.
      destruct Hmin as [->|Hmin]; [simpl; lia|].
      replace k with (S (k - 1)) at 1 by lia.
      rewrite Nat2Z.inj_succ, Z.pow_succ_r by lia.
      pose proof (Z.div_mod n 16 ltac:(lia)). pose proof (Z.mod_pos_bound n 16 ltac:(lia)).
      lia.
Qed.

Lemma log2_fuel (n : Z) : (0 <= n -> n < 16 ^ Z.of_nat (S (Z.to_nat (Z.log2 n))))%Z.
Proof.
  intros Hn. destruct (Z.eq_dec n 0) as [->|Hne]; [reflexivity|].
  pose proof (Z.log2_spec n ltac:(lia)) as [_ Hlt].
  pose proof (Z.log2_nonneg n) as Hl.
  rewrite Nat2Z.inj_succ, Z2Nat.id by lia.
  apply (Z.lt_le_trans _ _ _ Hlt).
  apply (Z.le_trans _ (2 ^ (4 * Z.succ (Z.log2 n)))).
  - apply Z.pow_le_mono_r; lia.
  - rewrite Z.pow_mul_r by lia. change (2 ^ 4)%Z with 16%Z. lia.
Qed.

(** Digits above the value are zeros. *)
Lemma fixed_hex_pad (k : nat) :
  forall j v, (0 <= v < 16 ^ Z.of_nat k)%Z ->
    fixed_hex (j + k) v = repeat_char "0"%char j ++ fixed_hex k v.
Proof.
  induction k as [|k IH]; intros j v Hv.
  - assert (v = 0%Z) by (simpl in Hv; lia). subst v.
    rewrite Nat.add_0_r. simpl fixed_hex at 2. rewrite append_nil_r.
    induction j as [|j IHj]; [reflexivity|].
    cbn [fixed_hex]. change (0 / 16)%Z with 0%Z. rewrite IHj.
    change (hex_digit (0 mod 16)) with "0"%char. apply repeat_char_snoc.
  - replace (j + S k)%nat with (S (j + k)) by lia. cbn [fixed_hex].
    rewrite Nat2Z.inj_succ, Z.pow_succ_r in Hv by lia.
    rewrite IH, append_assoc; [reflexivity|].
    split; [apply Z.div_pos; lia|apply Z.div_lt_upper_bound; lia].
Qed.

(** What [toBeHex32] returns, in terms of fixed-width digits. *)
Lemma toBeHex32_fixed (bn : Z) :
  (0 <= bn)%Z ->
  toBeHex32 bn = if (bn <? 16 ^ 64)%Z then Returned ("0x" ++ fixed_hex 64 bn)
                 else Thrown "public input > 256 bits".
Proof.
  intros Hbn. unfold toBeHex32, toString16.
  replace (bn <? 0)%Z with false by (symmetry; apply Z.ltb_ge; lia).
  destruct (hex_digits_fixed (S (Z.to_nat (Z.log2 bn))) bn ""
              (conj Hbn (log2_fuel bn Hbn)) ltac:(lia)) as (k & Hk & Heq & Hlt & Hmin).
  rewrite Heq, append_nil_r, length_fixed_hex.
  destruct (Z.ltb_spec bn (16 ^ 64)) as [Hsmall|Hbig].
  - assert (Hk64 : (k <= 64)%nat).
    { destruct Hmin as [->|Hmin]; [lia|].
      destruct (Nat.le_gt_cases k 64) as [H|H]; [exact H|].
      assert (16 ^ 64 <= 16 ^ Z.of_nat (k - 1))%Z by (apply Z.pow_le_mono_r; lia). lia. }
    replace (64 <? k)%nat with false by (symmetry; apply Nat.ltb_ge; exact Hk64).
    unfold padStart. rewrite length_fixed_hex.
    rewrite <- (fixed_hex_pad k (64 - k) bn) by lia.
    replace (64 - k + k)%nat with 64%nat by lia. reflexivity.
  - assert (Hk64 : (64 < k)%nat).
    { destruct (Nat.le_gt_cases k 64) as [H|H]; [|exact H].
      assert (16 ^ Z.of_nat k <= 16 ^ 64)%Z by (apply Z.pow_le_mono_r; lia). lia. }
    apply Nat.ltb_lt in Hk64. rewrite Hk64. reflexivity.
Qed.

Lemma to_hex_app (a b : list Z) : to_hex (a ++ b) = to_hex a ++ to_hex b.
Proof. induction a as [|x a IH]; simpl; [reflexivity|]. rewrite IH. reflexivity. Qed.

(** The hexadecimal writing of the big-endian bytes of [v] is made of the
    digits of [v]. *)
Lemma to_hex_be_bytes (m : nat) (v : Z) : to_hex (be_bytes m v) = fixed_hex (2 * m) v.
Proof.
  revert v. induction m as [|m IH]; intros v; [reflexivity|].
  replace (2 * S m)%nat with (S (S (2 * m))) by lia.
  cbn [be_bytes fixed_hex]. rewrite to_hex_app, IH. cbn [to_hex].
  rewrite Z.div_div by lia. change (16 * 16)%Z with 256%Z.
  rewrite append_assoc. cbn [append].
  replace (v mod 256 / 16)%Z with ((v / 16) mod 16)%Z.
  - replace ((v mod 256) mod 16)%Z with (v mod 16)%Z; [reflexivity|].
    change 256%Z with (16 * 16)%Z. rewrite Z.rem_mul_r by lia.
    rewrite (Z.mul_comm 16 ((v / 16) mod 16)), Z.mod_add by lia.
    rewrite Z.mod_mod by lia. reflexivity.
  - change 256%Z with (16 * 16)%Z. rewrite Z.rem_mul_r by lia.
    rewrite (Z.mul_comm 16 ((v / 16) mod 16)), Z.div_add by lia.
    rewrite (Z.div_small (v mod 16) 16) by (apply Z.mod_pos_bound; lia). lia.
Qed.

Lemma hex_val_digit (d : Z) : (0 <= d < 16)%Z -> hex_val (hex_digit d) = Some d.
Proof.
  intros Hd.
  assert (H : In d (map Z.of_nat (seq 0 16))).
  { apply in_map_iff. exists (Z.to_nat d). split; [lia|apply in_seq; lia]. }
  simpl in H.
  repeat (destruct H as [<-|H]; [vm_compute; reflexivity|]). destruct H.
Qed.

(** Reading back what [toString('hex')] wrote gives the bytes. *)
Lemma from_hex_to_hex (bytes : list Z) :
  (forall b, In b bytes -> 0 <= b <= 255)%Z -> from_hex (to_hex bytes) = bytes.
Proof.
  induction bytes as [|b bytes IH]; intros Hb; [reflexivity|].
  cbn [to_hex from_hex].
  assert (Hr : (0 <= b <= 255)%Z) by (apply Hb; left; reflexivity).
  rewrite !hex_val_digit.
  - rewrite IH by (intros; apply Hb; right; assumption).
    f_equal. pose proof (Z.div_mod b 16 ltac:(lia)). lia.
  - apply Z.mod_pos_bound. lia.
  - split; [apply Z.div_pos; lia|apply Z.div_lt_upper_bound; lia].
Qed.

Lemma reverse32_to_hex (bytes : list Z) :
  (forall b, In b bytes -> 0 <= b <= 255)%Z ->
  reverse32 ("0x" ++ to_hex bytes) = "0x" ++ to_hex (rev bytes).
Proof.
  intros Hb. unfold reverse32. cbn [append slice2].
  rewrite from_hex_to_hex by exact Hb. reflexivity.
Qed.

Lemma be_bytes_range (m : nat) (v b : Z) : In b (be_bytes m v) -> (0 <= b <= 255)%Z.
Proof.
  revert v. induction m as [|m IH]; intros v H; [destruct H|].
  cbn [be_bytes] in H. apply in_app_or in H. destruct H as [H|[<-|[]]].
  - apply (IH _ H).
  - pose proof (Z.mod_pos_bound v 256 ltac:(lia)). lia.
Qed.

Lemma length_be_bytes (m : nat) (v : Z) : List.length (be_bytes m v) = m.
Proof.
  revert v. induction m as [|m IH]; intros v; [reflexivity|].
  cbn [be_bytes]. rewrite length_app, IH. simpl. lia.
Qed.

End HexFacts.

(** ** [toBeHex32] and [reverse32] *)

Module HexTheorems.
Import Hex HexNotions HexFacts.
Local Open Scope string_scope.

(** [toBeHex32] of a non-negative BigInt below [2^256] returns ["0x"]
    followed by 64 digits, which [Buffer.from(_, 'hex')] reads back as the
    32 big-endian bytes of the value; from [2^256] on it throws. *)
Theorem toBeHex32_round_trip (bn : Z) :
  (0 <= bn)%Z ->
  ((bn < 2 ^ 256)%Z ->
   exists digits, toBeHex32 bn = Returned ("0x" ++ digits)
                  /\ String.length digits = 64%nat
                  /\ from_hex digits = be_bytes 32 bn)
  /\ ((2 ^ 256 <= bn)%Z -> toBeHex32 bn = Thrown "public input > 256 bits").
Proof.
  intros Hbn. rewrite (toBeHex32_fixed bn Hbn).
  change (16 ^ 64)%Z with (2 ^ 256)%Z. split.
  - intros Hlt. apply Z.ltb_lt in Hlt. rewrite Hlt.
    exists (fixed_hex 64 bn). split; [reflexivity|]. split; [apply length_fixed_hex|].
    change 64%nat with (2 * 32)%nat.
    rewrite <- (to_hex_be_bytes 32 bn). apply from_hex_to_hex, be_bytes_range.
  - intros Hge. apply Z.ltb_ge in Hge. rewrite Hge. reflexivity.
Qed.

(** On the hexadecimal writing of a Buffer, [reverse32] returns the
    writing of the reversed Buffer; applied twice it gives the string
    back. *)
Theorem reverse32_reverses (bytes : list Z) :
  (forall b, In b bytes -> 0 <= b <= 255)%Z ->
  reverse32 ("0x" ++ to_hex bytes) = "0x" ++ to_hex (rev bytes)
  /\ reverse32 (reverse32 ("0x" ++ to_hex bytes)) = "0x" ++ to_hex bytes.
Proof.
  intros Hb. split; [apply reverse32_to_hex, Hb|].
  rewrite (reverse32_to_hex bytes Hb), reverse32_to_hex, rev_involutive; [reflexivity|].
  intros b Hin. apply Hb, in_rev, Hin.
Qed.

End HexTheorems.

(** ** [_changeEndianess] of the recorder contract *)

Module EndianFacts.
Import Recorder HexNotions.

Lemma in_bit_positions (n : Z) : 0 <= n < 256 -> In n bit_positions.
Proof.
  intros Hn. unfold bit_positions. apply in_map_iff.
  exists (Z.to_nat n). split; [lia|apply in_seq; lia].
Qed.

Lemma forall_bit_positions (P : Z -> bool) :
  forallb P bit_positions = true -> forall n, 0 <= n < 256 -> P n = true.
Proof.
  intros H n Hn. rewrite forallb_forall in H. apply H, in_bit_positions, Hn.
Qed.

Lemma bits_above_256 (x n : Z) : 0 <= x < 2 ^ 256 -> 256 <= n -> Z.testbit x n = false.
Proof.
  intros Hx Hn. rewrite <- (Z.mod_small x (2 ^ 256)) by exact Hx.
  apply Z.mod_pow2_bits_high. lia.
Qed.

Lemma below_256_bits (x : Z) :
  0 <= x -> (forall n, 256 <= n -> Z.testbit x n = false) -> 0 <= x < 2 ^ 256.
Proof.
  intros Hx Hbits. replace x with (x mod 2 ^ 256).
  - apply Z.mod_pos_bound. reflexivity.
  - apply Z.bits_inj'. intros n Hn. destruct (Z.ltb_spec n 256) as [Hlt|Hge].
    + apply Z.mod_pow2_bits_low. lia.
    + rewrite Z.mod_pow2_bits_high by lia. symmetry. apply Hbits, Hge.
Qed.

Lemma shl_bit (x k n : Z) :
  0 <= n < 256 -> Z.testbit (shl x k) n = Z.testbit x (n - k).
Proof.
  intros Hn. unfold shl, wrap256. rewrite Z.mod_pow2_bits_low by lia.
  apply Z.shiftl_spec. lia.
Qed.

Lemma shl_range (x k : Z) : 0 <= shl x k < 2 ^ 256.
Proof. unfold shl, wrap256. apply Z.mod_pos_bound. reflexivity. Qed.

(** One line of [_changeEndianess], bit by bit. *)
Lemma swap_step_bit (hi lo k v n : Z) :
  masks_split hi lo k = true -> 0 <= n < 256 ->
  Z.testbit (swap_step hi lo k v) n = Z.testbit v (source_bit hi k n)
  /\ 0 <= source_bit hi k n < 256.
Proof.
  intros Hok Hn.
  pose proof (forall_bit_positions _ Hok n Hn) as H. cbv beta in H.
  apply andb_true_iff in H. destruct H as [H Hhi].
  apply andb_true_iff in H. destruct H as [Hx Hlo].
  apply Z.leb_le in Hlo. apply Z.ltb_lt in Hhi. split; [|lia].
  unfold swap_step. rewrite Z.lor_spec, Z.shiftr_spec, shl_bit, !Z.land_spec by lia.
  unfold source_bit.
  destruct (Z.testbit hi (n + k)), (Z.testbit lo (n - k)); try discriminate;
    rewrite ?andb_true_r, ?andb_false_r, ?orb_false_r, ?orb_false_l; reflexivity.
Qed.

Lemma swap_step_range (hi lo k v : Z) :
  0 <= hi < 2 ^ 256 -> 0 <= k -> 0 <= swap_step hi lo k v < 2 ^ 256.
Proof.
  intros Hhi Hk. pose proof (shl_range (Z.land v lo) k) as Hs.
  apply below_256_bits.
  - unfold swap_step. apply Z.lor_nonneg. split; [|lia].
    apply Z.shiftr_nonneg, Z.land_nonneg. right. lia.
  - intros n Hn. unfold swap_step.
    rewrite Z.lor_spec, Z.shiftr_spec, Z.land_spec by lia.
    rewrite (bits_above_256 hi (n + k)) by lia.
    rewrite (bits_above_256 _ n Hs Hn), andb_false_r. reflexivity.
Qed.

Lemma masks_ok :
  masks_split mask8_hi mask8_lo 8 = true /\ masks_split mask16_hi mask16_lo 16 = true
  /\ masks_split mask32_hi mask32_lo 32 = true /\ masks_split mask64_hi mask64_lo 64 = true.
Proof. repeat split; vm_compute; reflexivity. Qed.

Lemma source_of_result_mirrored (n : Z) :
  0 <= n < 256 -> source_of_result n = mirrored n /\ 0 <= mirrored n < 256
                  /\ mirrored (mirrored n) = n.
Proof.
  intros Hn.
  assert (H : forallb (fun n => (source_of_result n =? mirrored n)
                                && (0 <=? mirrored n) && (mirrored n <? 256)
                                && (mirrored (mirrored n) =? n)) bit_positions = true)
    by (vm_compute; reflexivity).
  pose proof (forall_bit_positions _ H n Hn) as Hb. cbv beta in Hb.
  rewrite !andb_true_iff in Hb. destruct Hb as [[[H1 H2] H3] H4].
  apply Z.eqb_eq in H1, H4. apply Z.leb_le in H2. apply Z.ltb_lt in H3. lia.
Qed.

(** The intermediate words of [_changeEndianess] stay inside 256 bits. *)
Lemma changeEndianess_range (v : Z) : 0 <= _changeEndianess v < 2 ^ 256.
Proof.
  unfold _changeEndianess. cbv zeta.
  set (v4 := swap_step mask64_hi mask64_lo 64 _).
  assert (H4 : 0 <= v4 < 2 ^ 256) by (apply swap_step_range; [vm_compute; split; congruence|lia]).
  pose proof (shl_range v4 128) as Hs.
  apply below_256_bits.
  - apply Z.lor_nonneg. split; [apply Z.shiftr_nonneg|]; lia.
  - intros n Hn. rewrite Z.lor_spec, Z.shiftr_spec by lia.
    rewrite (bits_above_256 v4 (n + 128)), (bits_above_256 _ n Hs Hn); [reflexivity|exact H4|lia].
Qed.

(** Bit [n] of the result is bit [mirrored n] of the input. *)
Lemma changeEndianess_bit (v n : Z) :
  0 <= n < 256 -> Z.testbit (_changeEndianess v) n = Z.testbit v (mirrored n).
Proof.
  intros Hn. destruct masks_ok as (M8 & M16 & M32 & M64).
  destruct (source_of_result_mirrored n Hn) as (<- & _ & _).
  unfold _changeEndianess, source_of_result. cbv zeta.
  set (v1 := swap_step mask8_hi mask8_lo 8 v).
  set (v2 := swap_step mask16_hi mask16_lo 16 v1).
  set (v3 := swap_step mask32_hi mask32_lo 32 v2).
  set (v4 := swap_step mask64_hi mask64_lo 64 v3).
  assert (H4 : 0 <= v4 < 2 ^ 256) by (apply swap_step_range; [vm_compute; split; congruence|lia]).
  assert (Hhalf : Z.testbit (Z.lor (Z.shiftr v4 128) (shl v4 128)) n
                  = Z.testbit v4 (source_half n) /\ 0 <= source_half n < 256).
  { unfold source_half. rewrite Z.lor_spec, Z.shiftr_spec, shl_bit by lia.
    destruct (Z.ltb_spec n 128) as [Hlo|Hhi].
    - rewrite (Z.testbit_neg_r v4 (n - 128)) by lia. rewrite orb_false_r. split; [reflexivity|lia].
    - rewrite (bits_above_256 v4 (n + 128)) by lia. split; [reflexivity|lia]. }
  destruct Hhalf as [-> R0].
  destruct (swap_step_bit _ _ _ v3 _ M64 R0) as [E4 R4]. fold v4 in E4. rewrite E4.
  destruct (swap_step_bit _ _ _ v2 _ M32 R4) as [E3 R3]. fold v3 in E3. rewrite E3.
  destruct (swap_step_bit _ _ _ v1 _ M16 R3) as [E2 R2]. fold v2 in E2. rewrite E2.
  destruct (swap_step_bit _ _ _ v _ M8 R2) as [E1 _]. fold v1 in E1. rewrite E1.
  reflexivity.
Qed.

Lemma byte_at_succ (v i : Z) : 0 <= i -> byte_at (v / 256) i = byte_at v (i + 1).
Proof.
  intros Hi. unfold byte_at. rewrite Z.pow_add_r, Z.pow_1_r by lia.
  rewrite Z.div_div by (try lia; apply Z.pow_pos_nonneg; lia).
  rewrite (Z.mul_comm 256). reflexivity.
Qed.

Lemma nth_be_bytes (m : nat) :
  forall v i, (i < m)%nat -> nth i (be_bytes m v) 0 = byte_at v (Z.of_nat (m - 1 - i)).
Proof.
  induction m as [|m IH]; intros v i Hi; [lia|].
  cbn [be_bytes]. destruct (Nat.eq_dec i m) as [->|Hne].
  - rewrite app_nth2 by (rewrite HexFacts.length_be_bytes; lia).
    rewrite HexFacts.length_be_bytes, Nat.sub_diag.
    replace (S m - 1 - m)%nat with 0%nat by lia.
    unfold byte_at. simpl. rewrite Z.div_1_r. reflexivity.
  - rewrite app_nth1 by (rewrite HexFacts.length_be_bytes; lia).
    rewrite IH by lia. rewrite byte_at_succ by lia. f_equal. lia.
Qed.

Lemma byte_at_bit (v i j : Z) :
  0 <= i -> 0 <= j ->
  Z.testbit (byte_at v i) j = if j <? 8 then Z.testbit v (8 * i + j) else false.
Proof.
  intros Hi Hj. unfold byte_at.
  change 256 with (2 ^ 8). rewrite <- Z.pow_mul_r, <- Z.shiftr_div_pow2 by lia.
  destruct (Z.ltb_spec j 8) as [Hlt|Hge].
  - rewrite Z.mod_pow2_bits_low, Z.shiftr_spec by lia. f_equal. lia.
  - apply Z.mod_pow2_bits_high. lia.
Qed.

Lemma mirrored_byte (i j : Z) :
  0 <= i <= 31 -> 0 <= j < 8 -> mirrored (8 * (31 - i) + j) = 8 * i + j.
Proof.
  intros Hi Hj. unfold mirrored.
  rewrite (Z.mul_comm 8 (31 - i)), Z.div_add_l by lia.
  rewrite (Z.add_comm ((31 - i) * 8) j), Z.mod_add by lia.
  rewrite Z.div_small, Z.mod_small by lia. lia.
Qed.

Lemma changeEndianess_byte (v i : Z) :
  0 <= i <= 31 -> byte_at (_changeEndianess v) (31 - i) = byte_at v i.
Proof.
  intros Hi. apply Z.bits_inj'. intros j Hj.
  rewrite !byte_at_bit by lia. destruct (Z.ltb_spec j 8) as [Hlt|Hge]; [|reflexivity].
  rewrite changeEndianess_bit by lia. rewrite mirrored_byte by lia. reflexivity.
Qed.

Lemma be_bytes_changeEndianess (v : Z) :
  be_bytes 32 (_changeEndianess v) = rev (be_bytes 32 v).
Proof.
  apply (nth_ext _ _ 0 0).
  - rewrite length_rev, !HexFacts.length_be_bytes. reflexivity.
  - intros i Hi. rewrite HexFacts.length_be_bytes in Hi.
    rewrite rev_nth by (rewrite HexFacts.length_be_bytes; exact Hi).
    rewrite HexFacts.length_be_bytes, !nth_be_bytes by lia.
    replace (Z.of_nat (32 - 1 - i)) with (31 - Z.of_nat i) by lia.
    replace (Z.of_nat (32 - 1 - (32 - S i))) with (Z.of_nat i) by lia.
    apply changeEndianess_byte. lia.
Qed.

End EndianFacts.

Module EndianTheorems.
Import Recorder Hex HexNotions HexFacts EndianFacts.
Local Open Scope string_scope.

(** [_changeEndianess] returns a [uint256] whose 32 bytes are the bytes of
    its argument in the opposite order; applied twice to a [uint256] it
    gives the argument back. *)
Theorem changeEndianess_reverses_bytes (v : Z) :
  (0 <= v < 2 ^ 256)%Z ->
  (0 <= _changeEndianess v < 2 ^ 256)%Z
  /\ be_bytes 32 (_changeEndianess v) = rev (be_bytes 32 v)
  /\ _changeEndianess (_changeEndianess v) = v.
Proof.
  intros Hv. split; [apply changeEndianess_range|]. split; [apply be_bytes_changeEndianess|].
  apply Z.bits_inj'. intros n Hn. destruct (Z.ltb_spec n 256) as [Hlt|Hge].
  - destruct (source_of_result_mirrored n ltac:(lia)) as (_ & Hm & Hinv).
    rewrite !changeEndianess_bit, Hinv by lia. reflexivity.
  - rewrite (bits_above_256 _ n (changeEndianess_range _) Hge).
    symmetry. apply bits_above_256; assumption.
Qed.

(** The script and the contract turn the hash of the public inputs the
    same way round: for a [uint256] [v], [reverse32] of the 32-byte
    hexadecimal writing of [v] is the writing of [_changeEndianess(v)]. *)
Theorem reverse32_matches_changeEndianess (v : Z) :
  (0 <= v < 2 ^ 256)%Z ->
  exists h h', toBeHex32 v = Returned h
               /\ toBeHex32 (_changeEndianess v) = Returned h'
               /\ reverse32 h = h'.
Proof.
  intros Hv. pose proof (changeEndianess_range v) as Hc.
  exists ("0x" ++ fixed_hex 64 v), ("0x" ++ fixed_hex 64 (_changeEndianess v)).
  change (2 ^ 256)%Z with (16 ^ 64)%Z in Hv, Hc.
  rewrite !toBeHex32_fixed by lia.
  replace (v <? 16 ^ 64)%Z with true by (symmetry; apply Z.ltb_lt; lia).
  replace (_changeEndianess v <? 16 ^ 64)%Z with true by (symmetry; apply Z.ltb_lt; lia).
  split; [reflexivity|]. split; [reflexivity|].
  change 64%nat with (2 * 32)%nat. rewrite <- !to_hex_be_bytes.
  rewrite be_bytes_changeEndianess.
  apply reverse32_to_hex, be_bytes_range.
Qed.

End EndianTheorems.

(** ** The recorder contract *)

Module RecorderFacts.
Import Recorder.

Section Facts.
  Variable keccak256 : list Z -> Z.
  Variables PROVING_SYSTEM_ID VERSION_HASH : Z.
  Variable verifyProofAggregation : Z -> Z -> Z -> Z -> list Z -> Z -> Z -> bool.

  Local Abbreviation run := (execute keccak256 PROVING_SYSTEM_ID VERSION_HASH verifyProofAggregation).
  Local Abbreviation leaf := (leaf_of keccak256 PROVING_SYSTEM_ID VERSION_HASH).
  Local Abbreviation ok := (accepted keccak256 PROVING_SYSTEM_ID VERSION_HASH verifyProofAggregation).
  Local Abbreviation final := (after keccak256 PROVING_SYSTEM_ID VERSION_HASH verifyProofAggregation).

(** When a transaction goes through, and what it leaves. *)
Lemma execute_cases (ctx : context) (st : storage) (c : call) :
  (tx_of c <> 0 /\ ok st c = true /\ isRecorded st (leaf st c) = false
   /\ run ctx st c
      = Some ({| zkVerify := zkVerify st; vkey := vkey st;
                 statementToTxHash := store (statementToTxHash st) (leaf st c) (tx_of c) |},
              {| statement := leaf st c; relayerTxHash := tx_of c;
                 sender := msg_sender ctx;
                 recordedAt := block_timestamp ctx mod 2 ^ 64 |}))
  \/ ((tx_of c = 0 \/ ok st c = false \/ isRecorded st (leaf st c) = true)
      /\ run ctx st c = None).
Proof.
  assert (H : forall l agg tx,
            (tx <> 0
             /\ verifyProofAggregation (zkVerify st) (domainId agg) (aggregationId agg) l
                  (merklePath agg) (leafCount agg) (index agg) = true
             /\ isRecorded st l = false
             /\ (if tx =? 0 then None
                 else verify_and_store verifyProofAggregation ctx st l agg tx)
                = Some ({| zkVerify := zkVerify st; vkey := vkey st;
                           statementToTxHash := store (statementToTxHash st) l tx |},
                        {| statement := l; relayerTxHash := tx; sender := msg_sender ctx;
                           recordedAt := block_timestamp ctx mod 2 ^ 64 |}))
            \/ ((tx = 0
                 \/ verifyProofAggregation (zkVerify st) (domainId agg) (aggregationId agg) l
                      (merklePath agg) (leafCount agg) (index agg) = false
                 \/ isRecorded st l = true)
                /\ (if tx =? 0 then None
                    else verify_and_store verifyProofAggregation ctx st l agg tx) = None)).
  { intros l agg tx. unfold verify_and_store, isRecorded.
    destruct (Z.eqb_spec tx 0) as [E|E]; [right; split; [left; exact E|reflexivity]|].
    destruct (verifyProofAggregation _ _ _ _ _ _ _) eqn:V; cbn [negb];
      [|right; split; [right; left; reflexivity|reflexivity]].
    destruct (statementToTxHash st l =? 0) eqn:R; cbn [negb].
    - left. repeat split; auto.
    - right. split; [right; right; reflexivity|reflexivity]. }
  destruct c as [h agg tx|lf agg tx]; apply H.
Qed.

Lemma execute_immutables (ctx : context) (st st' : storage) (c : call) ev :
  run ctx st c = Some (st', ev) -> zkVerify st' = zkVerify st /\ vkey st' = vkey st.
Proof.
  intros H. destruct (execute_cases ctx st c) as [(_ & _ & _ & E)|(_ & E)];
    rewrite E in H; [|discriminate]. injection H as <- _. split; reflexivity.
Qed.

Lemma leaf_of_immutable (st st' : storage) (c : call) :
  vkey st' = vkey st -> leaf st' c = leaf st c.
Proof. intros H. destruct c; cbn [leaf_of]; rewrite ?H; reflexivity. Qed.

Lemma accepted_immutable (st st' : storage) (c : call) :
  zkVerify st' = zkVerify st -> vkey st' = vkey st -> ok st' c = ok st c.
Proof.
  intros Hz Hv. unfold accepted. rewrite Hz, (leaf_of_immutable _ _ _ Hv). reflexivity.
Qed.

(** A transaction leaves every recorded statement as it is. *)
Lemma execute_keeps (ctx : context) (st st' : storage) (c : call) ev (l : Z) :
  run ctx st c = Some (st', ev) -> isRecorded st l = true ->
  statementToTxHash st' l = statementToTxHash st l.
Proof.
  intros H Hrec. destruct (execute_cases ctx st c) as [(_ & _ & Hnew & E)|(_ & E)];
    rewrite E in H; [|discriminate]. injection H as <- _.
  cbn [statementToTxHash]. unfold store.
  destruct (Z.eqb_spec l (leaf st c)) as [->|Hne]; [congruence|reflexivity].
Qed.

Lemma after_immutables (txs : list (context * call)) (st : storage) :
  zkVerify (final st txs) = zkVerify st /\ vkey (final st txs) = vkey st.
Proof.
  revert st. induction txs as [|[ctx c] txs IH]; intros st; [split; reflexivity|].
  cbn [after]. destruct (run ctx st c) as [[st' ev]|] eqn:E; [|apply IH].
  destruct (execute_immutables _ _ _ _ _ E) as [Hz Hv].
  destruct (IH st') as [Hz' Hv']. split; congruence.
Qed.

Lemma after_keeps (txs : list (context * call)) (st : storage) (l : Z) :
  isRecorded st l = true ->
  statementToTxHash (final st txs) l = statementToTxHash st l.
Proof.
  revert st. induction txs as [|[ctx c] txs IH]; intros st Hrec; [reflexivity|].
  cbn [after]. destruct (run ctx st c) as [[st' ev]|] eqn:E; [|apply IH, Hrec].
  pose proof (execute_keeps _ _ _ _ _ l E Hrec) as Hk.
  rewrite IH, Hk; [reflexivity|]. unfold isRecorded in *. rewrite Hk. exact Hrec.
Qed.
End Facts.

End RecorderFacts.

Module RecorderTheorems.
Import Recorder RecorderFacts.

(** A recording transaction, of either kind, goes through exactly when
    the relayer transaction hash is not zero, zkVerify accepts the leaf and
    the leaf is not recorded yet; it then stores the hash under the leaf,
    touches nothing else, emits [ProofRecorded] with the timestamp cut to
    64 bits, and makes any later recording of the same leaf revert. *)
Theorem recording_goes_through_once
  (keccak256 : list Z -> Z) (PROVING_SYSTEM_ID VERSION_HASH : Z)
  (verifyProofAggregation : Z -> Z -> Z -> Z -> list Z -> Z -> Z -> bool)
  (ctx : context) (st : storage) (c : call) :
  let run := execute keccak256 PROVING_SYSTEM_ID VERSION_HASH verifyProofAggregation in
  let l := leaf_of keccak256 PROVING_SYSTEM_ID VERSION_HASH st c in
  (run ctx st c <> None <->
   tx_of c <> 0
   /\ accepted keccak256 PROVING_SYSTEM_ID VERSION_HASH verifyProofAggregation st c = true
   /\ isRecorded st l = false)
  /\ (forall st' ev, run ctx st c = Some (st', ev) ->
        isRecorded st' l = true
        /\ statementToTxHash st' l = tx_of c
        /\ (forall other, other <> l ->
              statementToTxHash st' other = statementToTxHash st other)
        /\ zkVerify st' = zkVerify st /\ vkey st' = vkey st
        /\ ev = {| statement := l; relayerTxHash := tx_of c; sender := msg_sender ctx;
                   recordedAt := block_timestamp ctx mod 2 ^ 64 |}
        /\ (forall ctx' c',
              leaf_of keccak256 PROVING_SYSTEM_ID VERSION_HASH st' c' = l ->
              run ctx' st' c' = None)).
Proof.
  intros run l. subst run l.
  destruct (execute_cases keccak256 PROVING_SYSTEM_ID VERSION_HASH verifyProofAggregation
              ctx st c) as [(Htx & Hok & Hnew & E)|(Hno & E)]; rewrite E.
  - split; [split; [auto|discriminate]|].
    intros st' ev H. injection H as Hst <-.
    assert (Hstore : statementToTxHash st'
                     = store (statementToTxHash st)
                         (leaf_of keccak256 PROVING_SYSTEM_ID VERSION_HASH st c) (tx_of c))
      by (rewrite <- Hst; reflexivity).
    assert (Hrec : isRecorded st' (leaf_of keccak256 PROVING_SYSTEM_ID VERSION_HASH st c)
                   = true).
    { unfold isRecorded. rewrite Hstore. unfold store. rewrite Z.eqb_refl.
      apply negb_true_iff, Z.eqb_neq, Htx. }
    split; [exact Hrec|].
    split; [rewrite Hstore; unfold store; rewrite Z.eqb_refl; reflexivity|].
    split.
    { intros other Hne. rewrite Hstore. unfold store.
      apply Z.eqb_neq in Hne. rewrite Hne. reflexivity. }
    split; [rewrite <- Hst; reflexivity|]. split; [rewrite <- Hst; reflexivity|].
    split; [reflexivity|].
    intros ctx' c' Hleaf.
    destruct (execute_cases keccak256 PROVING_SYSTEM_ID VERSION_HASH verifyProofAggregation
                ctx' st' c') as [(_ & _ & Hnew' & _)|(_ & E')]; [|exact E'].
    rewrite Hleaf in Hnew'. congruence.
  - split; [|intros st' ev H; discriminate].
    split; [congruence|]. intros (Htx & Hok & Hnew). destruct Hno as [H|[H|H]]; congruence.
Qed.

(** Whatever transactions follow, a recorded statement keeps the relayer
    transaction hash it was recorded with, and the contract keeps its
    zkVerify address and its verification key. *)
Theorem recorded_statement_is_final
  (keccak256 : list Z -> Z) (PROVING_SYSTEM_ID VERSION_HASH : Z)
  (verifyProofAggregation : Z -> Z -> Z -> Z -> list Z -> Z -> Z -> bool)
  (st : storage) (txs : list (context * call)) (l : Z) :
  let st' := after keccak256 PROVING_SYSTEM_ID VERSION_HASH verifyProofAggregation st txs in
  isRecorded st l = true ->
  statementToTxHash st' l = statementToTxHash st l
  /\ isRecorded st' l = true
  /\ zkVerify st' = zkVerify st /\ vkey st' = vkey st.
Proof.
  intros st' Hrec. subst st'.
  pose proof (after_keeps keccak256 PROVING_SYSTEM_ID VERSION_HASH verifyProofAggregation
                txs st l Hrec) as Hk.
  split; [exact Hk|]. split; [unfold isRecorded in *; rewrite Hk; exact Hrec|].
  apply after_immutables.
Qed.

(** Nothing is recorded without zkVerify: a statement that is recorded
    after a list of transactions was recorded before them, or is the leaf
    of one of them that zkVerify accepted, sent with the relayer
    transaction hash that is now stored. *)
Theorem recorded_only_if_verified
  (keccak256 : list Z -> Z) (PROVING_SYSTEM_ID VERSION_HASH : Z)
  (verifyProofAggregation : Z -> Z -> Z -> Z -> list Z -> Z -> Z -> bool)
  (st : storage) (txs : list (context * call)) (l : Z) :
  let st' := after keccak256 PROVING_SYSTEM_ID VERSION_HASH verifyProofAggregation st txs in
  isRecorded st' l = true ->
  isRecorded st l = true
  \/ exists ctx c,
       In (ctx, c) txs
       /\ leaf_of keccak256 PROVING_SYSTEM_ID VERSION_HASH st c = l
       /\ accepted keccak256 PROVING_SYSTEM_ID VERSION_HASH verifyProofAggregation st c = true
       /\ statementToTxHash st' l = tx_of c.
Proof.
  intros st'. subst st'. revert st.
  induction txs as [|[ctx c] txs IH]; intros st Hrec; [left; exact Hrec|].
  cbn [after] in *.
  destruct (execute_cases keccak256 PROVING_SYSTEM_ID VERSION_HASH verifyProofAggregation
              ctx st c) as [(Htx & Hok & Hnew & E)|(_ & E)]; rewrite E in *.
  - set (st1 := {| zkVerify := zkVerify st; vkey := vkey st;
                   statementToTxHash :=
                     store (statementToTxHash st)
                       (leaf_of keccak256 PROVING_SYSTEM_ID VERSION_HASH st c) (tx_of c) |})
      in *.
    destruct (Z.eq_dec l (leaf_of keccak256 PROVING_SYSTEM_ID VERSION_HASH st c)) as [->|Hne].
    + right. exists ctx, c. split; [left; reflexivity|]. split; [reflexivity|].
      split; [exact Hok|].
      rewrite (after_keeps keccak256 PROVING_SYSTEM_ID VERSION_HASH verifyProofAggregation
                 txs st1).
      * unfold st1, store. cbn [statementToTxHash]. rewrite Z.eqb_refl. reflexivity.
      * unfold isRecorded, st1, store. cbn [statementToTxHash]. rewrite Z.eqb_refl.
        apply negb_true_iff, Z.eqb_neq, Htx.
    + destruct (IH st1 Hrec) as [Hbefore|(ctx' & c' & Hin & Hleaf & Hacc & Hst)].
      * left. unfold isRecorded, st1, store in Hbefore. cbn [statementToTxHash] in Hbefore.
        apply Z.eqb_neq in Hne. rewrite Hne in Hbefore. exact Hbefore.
      * right. exists ctx', c'. split; [right; exact Hin|].
        rewrite <- (leaf_of_immutable keccak256 PROVING_SYSTEM_ID VERSION_HASH st st1 c')
          by reflexivity.
        split; [exact Hleaf|]. split; [|exact Hst].
        rewrite <- (accepted_immutable keccak256 PROVING_SYSTEM_ID VERSION_HASH
                      verifyProofAggregation st st1 c') by reflexivity.
        exact Hacc.
  - destruct (IH st Hrec) as [Hbefore|(ctx' & c' & Hin & H)]; [left; exact Hbefore|].
    right. exists ctx', c'. split; [right; exact Hin|exact H].
Qed.

End RecorderTheorems.

(** ** Instances of the further properties *)

Module ExtraInstances.
Import R1CS R1CSFacts Circuit Notions Samples SmallPrime SmallPrimeFacts BuilderFacts.
Import Relayer RelayerExtras BuilderExtras CircuitExtras.
Import Hex HexNotions HexTheorems EndianTheorems Recorder RecorderTheorems.

Lemma poll_forever_first_aggregated_witness :
  poll_forever 10 (aggregated_from 3) 0 0
  = Some {| last_status := "Aggregated"; requests := 4; waited_ms := 15000 |}.
Proof.
  rewrite (poll_forever_first_aggregated (aggregated_from 3) 3 10).
  - reflexivity.
  - reflexivity.
  - intros j Hj. destruct j as [|[|[|j]]]; [reflexivity ..|lia].
Defined.

Lemma bounded_loop_unreachable_witness :
  (true = true /\
   exists st, RecordOnChain {| last_status := "Aggregated"; requests := 4;
                               waited_ms := 30000 |} = RecordOnChain st
              /\ is_aggregated (last_status st) = true)
  \/ (true = false /\
      exists st, RecordOnChain {| last_status := "Aggregated"; requests := 4;
                                  waited_ms := 30000 |} = SkipNoWallet st).
Proof.
  apply (bounded_loop_unreachable 10 (aggregated_from 3) true). vm_compute. reflexivity.
Defined.

Lemma pack31LE_little_endian_witness :
  (0 <= Builder.pack31LE [1; 2; 3] < 256 ^ 31)%Z
  /\ (forall i, (i < 31)%nat ->
        (Builder.pack31LE [1; 2; 3] / 256 ^ Z.of_nat i) mod 256
        = Builder.at_or_0 [1; 2; 3] i)%Z.
Proof.
  assert (Hb : forall i, (0 <= Builder.at_or_0 [1; 2; 3] i <= 255)%Z).
  { intros i. destruct i as [|[|[|i]]]; try (vm_compute; split; congruence).
    unfold Builder.at_or_0. simpl. destruct i; lia. }
  split.
  - apply (proj1 (pack31LE_little_endian [1; 2; 3]%Z Hb)).
  - apply (proj1 (proj2 (pack31LE_little_endian [1; 2; 3]%Z Hb))).
Defined.

Lemma builder_output_satisfies_circuit_witness :
  satisfied (main q toy_poseidon (Witness.to_signals q (Samples.written gmail_message)))
  = true.
Proof.
  apply (builder_output_satisfies_circuit q q_prime toy_poseidon toy_poseidon
           (fun a b => eq_refl) gmail_message).
  vm_compute. reflexivity.
Defined.

Lemma Bits1_bit_witness :
  fst (Bits1 q (fe 1)) = fe 1
  /\ satisfied (snd (Bits1 q (fe 1))) = true
  /\ satisfied (snd (Bits1 q (fe 2))) <> true.
Proof.
  split; [apply (proj1 (Bits1_bit q q_prime (fe 1)))|]. split.
  - apply (proj2 (Bits1_bit q q_prime (fe 1))). right. reflexivity.
  - intros H. apply (proj2 (Bits1_bit q q_prime (fe 2))) in H.
    destruct H as [H|H]; apply (f_equal Zmod.to_Z) in H; vm_compute in H; discriminate.
Defined.

Lemma Pack31_injective_witness :
  get (map (Zmod.of_Z bn128_r) [7; 200; 13]%Z) 3
  = get (map (Zmod.of_Z bn128_r) [7; 200; 13; 0]%Z) 3.
Proof.
  assert (Hp : (256 ^ 31 <= bn128_r)%Z) by (apply Z.leb_le; vm_compute; reflexivity).
  assert (Hb : forall l, (forall b, In b l -> 0 <= b <= 255)%Z -> forall i, (i < 31)%nat ->
             (Zmod.to_Z (get (map (Zmod.of_Z bn128_r) l) i) <= 255)%Z).
  { intros l Hl i _. unfold get.
    destruct (Nat.lt_ge_cases i (List.length l)) as [Hi|Hi].
    - change Zmod.zero with (Zmod.of_Z bn128_r 0). rewrite map_nth.
      pose proof (Hl _ (nth_In l 0%Z Hi)) as Hr.
      rewrite Zmod.to_Z_of_Z, Z.mod_small; [lia|].
      split; [lia|]. apply Z.lt_le_trans with (256 ^ 31)%Z; [|exact Hp].
      apply Z.le_lt_trans with 255%Z; [lia|reflexivity].
    - rewrite nth_overflow by (rewrite length_map; exact Hi). vm_compute. congruence. }
  apply (Pack31_injective bn128_r Hp (map (Zmod.of_Z bn128_r) [7; 200; 13]%Z)
           (map (Zmod.of_Z bn128_r) [7; 200; 13; 0]%Z) (fun _ => []) (fun _ => [])).
  - apply Hb. intros b [<-|[<-|[<-|[]]]]; lia.
  - apply Hb. intros b [<-|[<-|[<-|[<-|[]]]]]; lia.
  - vm_compute. reflexivity.
  - repeat constructor.
Defined.


Lemma toBeHex32_round_trip_witness :
  (exists digits, toBeHex32 255 = Returned ("0x" ++ digits)%string
                  /\ String.length digits = 64%nat
                  /\ from_hex digits = be_bytes 32 255)
  /\ toBeHex32 (2 ^ 256) = Thrown "public input > 256 bits".
Proof.
  split.
  - apply (proj1 (toBeHex32_round_trip 255 ltac:(lia))). reflexivity.
  - apply (proj2 (toBeHex32_round_trip (2 ^ 256) ltac:(lia))). lia.
Defined.

Lemma reverse32_reverses_witness :
  reverse32 ("0x" ++ to_hex [1; 2; 255])%string = ("0x" ++ to_hex (rev [1; 2; 255]))%string
  /\ reverse32 (reverse32 ("0x" ++ to_hex [1; 2; 255])%string)
     = ("0x" ++ to_hex [1; 2; 255])%string.
Proof.
  apply (reverse32_reverses [1; 2; 255]%Z).
  intros b [<-|[<-|[<-|[]]]]; lia.
Defined.

Lemma changeEndianess_reverses_bytes_witness :
  (0 <= _changeEndianess 258 < 2 ^ 256)%Z
  /\ be_bytes 32 (_changeEndianess 258) = rev (be_bytes 32 258)
  /\ _changeEndianess (_changeEndianess 258) = 258%Z.
Proof. apply (changeEndianess_reverses_bytes 258). split; [lia|reflexivity]. Defined.

Lemma reverse32_matches_changeEndianess_witness :
  exists h h', toBeHex32 258 = Returned h
               /\ toBeHex32 (_changeEndianess 258) = Returned h'
               /\ reverse32 h = h'.
Proof. apply (reverse32_matches_changeEndianess 258). split; [lia|reflexivity]. Defined.

Lemma recorded_statement_is_final_witness :
  statementToTxHash (after toy_keccak 1 2 toy_verify storage_with_10 later_transactions) 10
  = statementToTxHash storage_with_10 10
  /\ isRecorded (after toy_keccak 1 2 toy_verify storage_with_10 later_transactions) 10
     = true
  /\ zkVerify (after toy_keccak 1 2 toy_verify storage_with_10 later_transactions)
     = zkVerify storage_with_10
  /\ vkey (after toy_keccak 1 2 toy_verify storage_with_10 later_transactions)
     = vkey storage_with_10.
Proof.
  apply (recorded_statement_is_final toy_keccak 1 2 toy_verify storage_with_10
           later_transactions 10).
  vm_compute. reflexivity.
Defined.

Lemma recorded_only_if_verified_witness :
  isRecorded fresh_storage 10 = true
  \/ exists ctx c,
       In (ctx, c) [(sample_context, RecordWithLeaf 10 sample_aggregation 99)]
       /\ leaf_of toy_keccak 1 2 fresh_storage c = 10%Z
       /\ accepted toy_keccak 1 2 toy_verify fresh_storage c = true
       /\ statementToTxHash storage_with_10 10 = tx_of c.
Proof.
  apply (recorded_only_if_verified toy_keccak 1 2 toy_verify fresh_storage
           [(sample_context, RecordWithLeaf 10 sample_aggregation 99)] 10).
  vm_compute. reflexivity.
Defined.

End ExtraInstances.
